(** * qiskit-metal, Ansys renderer: fillet selection, name cleaning and
      the render pass of [QAnsysRenderer]

    Source: [qiskit_metal/renderers/renderer_ansys/ansys_renderer.py].

    Python floats are idealised as exact rationals ([Q]); Python's
    [round] is rendered exactly (round half to even on the decimal grid).
    Lists of vertex indices are [list nat]; Python strings are [string]. *)

From Stdlib Require Import ZArith QArith Qround Qminmax Qpower.
From Stdlib Require Import List Lia Lqa Bool String Ascii DecimalString.
Import ListNotations.

(* ================================================================== *)
(** ** Python built-ins used by the module *)
(* ================================================================== *)

Module Py.

Open Scope Q_scope.

(** [x < y] on floats, as a boolean. *)
Definition Qltb (x y : Q) : bool :=
  match Qcompare x y with Lt => true | _ => false end.

(** [10 ** p] for an integer [p] of either sign. *)
Definition pow10 (p : Z) : Q := 10 ^ p.

(** Nearest integer to [y], ties going to the even neighbour: the rule
    Python's [round] applies. *)
Definition round_half_even (y : Q) : Z :=
  let f := Qfloor y in
  match Qcompare (y - inject_Z f) (1 # 2) with
  | Lt => f
  | Gt => (f + 1)%Z
  | Eq => if Z.even f then f else (f + 1)%Z
  end.

(** [round(x, ndigits)]. *)
Definition round (x : Q) (ndigits : Z) : Q :=
  inject_Z (round_half_even (x * pow10 ndigits)) / pow10 ndigits.

(** Nearest integer to the square root of [s] (for [0 <= s]), ties going
    to the even neighbour.  [Z.sqrt (Qfloor (4 * s))] is the integer part
    of twice the root, so its parity tells on which side of the half-way
    point the root lies. *)
Definition round_sqrt (s : Q) : Z :=
  let t := Z.sqrt (Qfloor (4 * s)) in
  let m := (t / 2)%Z in
  if Z.even t then m
  else if Qeq_bool (4 * s) (inject_Z (t * t))
       then (if Z.even m then m else (m + 1)%Z)
       else (m + 1)%Z.

(** [l[i]] with Python's negative indices; [d] stands for the
    [IndexError] cases, which the callers below never reach. *)
Definition index {A} (d : A) (l : list A) (i : Z) : A :=
  if (i <? 0)%Z
  then nth (Z.to_nat (Z.of_nat (List.length l) + i)) l d
  else nth (Z.to_nat i) l d.

(** [l[1:-1]]: the list without its first and its last element (empty
    when [l] has fewer than three elements). *)
Definition slice_1_m1 {A} (l : list A) : list A := removelast (tl l).

(** [l[:-1]]. *)
Definition slice_m1 {A} (l : list A) : list A := removelast l.

End Py.

(* ================================================================== *)
(** ** Fillet eligibility *)
(* ================================================================== *)

Module Fillet.

Import Py.
Open Scope Q_scope.

(** A vertex: a tuple of two coordinates. *)
Definition point : Type := (Q * Q)%type.

Definition origin : point := (0, 0).

(** Squared Euclidean length of the segment from [u] to [v]. *)
Definition dist2 (u v : point) : Q :=
  (fst u - fst v) * (fst u - fst v) + (snd u - snd v) * (snd u - snd v).

(** Modelled from the spec: [Vector.get_distance], the distance helper of
    [qiskit_metal.toolbox_python.utility_functions] that the proximity
    check relies on, is absent from the sources.  The spec has the check
    made "within rounding precision", "rounding to a fixed number of
    decimal digits before comparisons": the Euclidean distance of the two
    points rounded to [precision] decimal digits. *)
Definition get_distance (u v : point) (precision : Z) : Q :=
  inject_Z (round_sqrt (dist2 u v * (pow10 precision * pow10 precision)))
  / pow10 precision.

(** Modelled from the spec: part of [bad_fillet_idxs] (absent from the
    sources), its "pairwise proximity check against neighbors".  Vertex
    [i] fails the check when the shorter of its two adjacent edges, its
    length rounded, is less than twice the radius: "for a very large
    radius exceeding half the shortest adjacent edge, the affected
    vertices should be excluded". *)
Definition too_close (coords : list point) (fradius : Q) (precision : Z)
    (i : nat) : bool :=
  let length := List.length coords in
  let c := index origin coords in
  let prev := (Z.of_nat i - 1)%Z in
  let next := ((Z.of_nat i + 1) mod Z.of_nat length)%Z in
  Qltb (Qmin (get_distance (c prev) (c (Z.of_nat i)) precision)
             (get_distance (c (Z.of_nat i)) (c next) precision))
       (2 * fradius).

(** Modelled from the spec: [bad_fillet_idxs] of
    [qiskit_metal.toolbox_python.utility_functions] is absent from the
    sources.  The spec: "compute, per vertex, whether the two adjacent
    edge segments are long enough (relative to the radius, considering
    also radii of curvature introduced by rounding neighboring
    vertices)"; the bad indices come from a "pairwise proximity check
    against neighbors within rounding precision"; "for a very large
    radius exceeding half the shortest adjacent edge, the affected
    vertices should be excluded"; "For closed shapes all vertices are
    candidates"; for open shapes the two end vertices have "no
    incoming/outgoing edge on one side", so only the vertices with two
    adjacent edges are tested. *)
Definition bad_fillet_idxs (coords : list point) (fradius : Q)
    (precision : Z) (isclosed : bool) : list nat :=
  let length := List.length coords in
  if isclosed
  then filter (too_close coords fradius precision) (seq 0 length)
  else filter (too_close coords fradius precision) (seq 1 (length - 2)).

(** Modelled from the spec: [toggle_numbers] of
    [qiskit_metal.toolbox_python.utility_functions] is absent from the
    sources.  The spec: the bad indices are "inverted against the full
    index range to get good indices": the indices of
    [0, ..., totlength - 1], in order, that are not in [numbers]. *)
Definition toggle_numbers (numbers : list nat) (totlength : nat) : list nat :=
  filter (fun i => negb (existsb (Nat.eqb i) numbers)) (seq 0 totlength).

(** [good_fillet_idxs] (ansys_renderer.py, lines 41-57). *)
Definition good_fillet_idxs (coords : list point) (fradius : Q)
    (precision : Z) (isclosed : bool) : list nat :=
  if isclosed
  then toggle_numbers (bad_fillet_idxs coords fradius precision true)
                      (List.length coords)
  else slice_1_m1
         (toggle_numbers (bad_fillet_idxs coords fradius precision false)
                         (List.length coords)).

End Fillet.

(* ================================================================== *)
(** ** Variable names for Ansys objects *)
(* ================================================================== *)

Module CleanName.

Open Scope char_scope.

Definition in_range (lo hi c : ascii) : bool :=
  (N_of_ascii lo <=? N_of_ascii c)%N && (N_of_ascii c <=? N_of_ascii hi)%N.

Definition is_digit (c : ascii) : bool := in_range "0" "9" c.
Definition is_lower (c : ascii) : bool := in_range "a" "z" c.
Definition is_upper (c : ascii) : bool := in_range "A" "Z" c.

(** The character class [[0-9a-zA-Z_]]. *)
Definition word_char (c : ascii) : bool :=
  is_digit c || is_lower c || is_upper c || Ascii.eqb c "_".

(** The character class [[a-zA-Z_]]. *)
Definition head_char (c : ascii) : bool :=
  is_lower c || is_upper c || Ascii.eqb c "_".

(** [re.sub('[^...]', '', s)] for a one-character negated class: every
    character outside the class [keep] is deleted. *)
Fixpoint sub_outside (keep : ascii -> bool) (s : string) : string :=
  match s with
  | EmptyString => EmptyString
  | String c s' =>
      if keep c then String c (sub_outside keep s') else sub_outside keep s'
  end.

(** [re.sub('^[^...]+', '', s)]: the longest run of characters outside the
    class [stop] at the start of [s] is deleted (the pattern is anchored
    and greedy, so it matches at most once). *)
Fixpoint sub_leading_outside (stop : ascii -> bool) (s : string) : string :=
  match s with
  | EmptyString => EmptyString
  | String c s' => if stop c then s else sub_leading_outside stop s'
  end.

(** [get_clean_name] (ansys_renderer.py, lines 59-74). *)
Definition get_clean_name (name : string) : string :=
  let name := sub_outside word_char name in
  let name := sub_leading_outside head_char name in
  name.

(** Every character of [s] satisfies [p]. *)
Fixpoint all_chars (p : ascii -> bool) (s : string) : bool :=
  match s with
  | EmptyString => true
  | String c s' => p c && all_chars p s'
  end.

(** A letter or underscore followed by letters, digits and underscores,
    or the empty string. *)
Definition clean (s : string) : bool :=
  all_chars word_char s &&
  match s with
  | EmptyString => true
  | String c _ => head_char c
  end.

End CleanName.

(* ================================================================== *)
(** ** The external modeler *)
(* ================================================================== *)

Module Modeler.

Import Fillet.

Definition point3 : Type := (Q * Q * Q)%type.

(** What the modeler hands back for a drawn object. *)
Definition handle : Type := string.

(** The calls the renderer makes on [self.modeler] (and on the objects it
    returns), with the arguments it passes. *)
Inductive call : Type :=
| draw_rect_corner (pos : list Q) (x_size y_size z_size : Q)
                   (transparency : Q)
| rename_obj (obj : handle) (name : string)
| draw_polyline (points : list point3) (closed : bool)
                (transparency : option Q)
| rename (obj : handle) (name : string)
| _fillet (radius : Q) (vertex_index : list nat) (obj : handle)
| subtract (blank_name : string) (tool_names : list string)
| _sweep_along_path (to_sweep path_obj : handle)
| draw_box_center (pos size : list Q) (name : string)
                  (material : option string)
| draw_rect_center (pos : list Q) (x_size y_size : Q) (name : string)
                   (transparency : Q)
| assign_perfect_E (obj : list string).

(** Exceptions: the ones Python raises inside the renderer's own
    statements, and whatever the CAD binding raises. *)
Inductive exn : Type :=
| KeyError (key : string)
| IndexError
| ZeroDivisionError
| AttributeError
| External (what : string).

(** The outcome of one call on the modeler. *)
Inductive reply : Type :=
| Return (h : handle)
| Raise (e : exn).

End Modeler.

(* ================================================================== *)
(** ** QAnsysRenderer *)
(* ================================================================== *)

Module Renderer.

Import Py Fillet CleanName Modeler.
Open Scope string_scope.
Open Scope Q_scope.

(** The [geometry] field of a row: a shapely object.  [exterior] and
    [coords] are the coordinate lists shapely gives. *)
Inductive geometry : Type :=
| Polygon (exterior : list point) (interiors : list (list point))
| LineString (coords : list point)
| OtherGeometry (kind : string).

(** A row of a QGeometry table; [subtract_flag] is the column
    [subtract] (the name is taken by the modeler call). *)
Record qgeom : Type := {
  component : Z;
  name : string;
  geom : geometry;
  chip : string;
  fillet : Q;
  width : Q;
  subtract_flag : bool;
  helper : bool
}.

(** [design.get_chip_size(chip_name)]. *)
Record chip_size : Type := {
  center_x : Q; center_y : Q; center_z : Q;
  size_x : Q; size_y : Q; size_z : Q;
  sample_holder_top : Q; sample_holder_bottom : Q
}.

(** Everything the renderer reaches outside this file: pyEPR
    ([parse_units], the modeler), [math.sqrt], the helpers of other
    qiskit_metal modules, the [QRenderer] base class and the design.
    The modeler answers a call knowing the calls made before it. *)
Record Host : Type := {
  parse_units : Q -> Q;
  math_sqrt : Q -> Q;
  modeler : list call -> call -> reply;
  to_vec3D : list point -> Q -> list point3;
  is_rectangle : geometry -> bool;
  get_unique_component_ids : list string -> list Z * Z;
  get_element_types : list string;
  tables : string -> list qgeom;
  get_chip_z : string -> Q;
  _chips : string -> option string;
  get_chip_size : string -> chip_size;
  PRECISION : Z
}.

(** [self.chip_subtract_dict]: chip name to set of shape names, in
    insertion order (the order a Python dict iterates in); a set is kept
    as a duplicate-free list. *)
Definition subtract_dict : Type := list (string * list string).

Fixpoint dict_contains (d : subtract_dict) (k : string) : bool :=
  match d with
  | [] => false
  | (k', _) :: d' => String.eqb k k' || dict_contains d' k
  end.

(** [d[k]] for a key that is present ([defaultdict(set)] gives the empty
    set otherwise). *)
Fixpoint dict_get (d : subtract_dict) (k : string) : list string :=
  match d with
  | [] => []
  | (k', v) :: d' => if String.eqb k k' then v else dict_get d' k
  end.

(** [d[k] = v]. *)
Fixpoint dict_set (d : subtract_dict) (k : string) (v : list string)
    : subtract_dict :=
  match d with
  | [] => [(k, v)]
  | (k', v') :: d' =>
      if String.eqb k k' then (k', v) :: d' else (k', v') :: dict_set d' k v
  end.

(** [s.add(x)]. *)
Definition set_add (s : list string) (x : string) : list string :=
  if existsb (String.eqb x) s then s else s ++ [x].

(** The renderer's two accumulators and the calls made on the modeler so
    far. *)
Record world : Type := {
  chip_subtract_dict : subtract_dict;
  assign_perfE : list string;
  calls : list call
}.

(** A method body: it reads and updates the world and either returns or
    raises. *)
Definition M (A : Type) : Type := world -> world * (exn + A).

Definition ret {A} (a : A) : M A := fun w => (w, inr a).

Definition raise {A} (e : exn) : M A := fun w => (w, inl e).

Definition bind {A B} (m : M A) (k : A -> M B) : M B :=
  fun w =>
    match m w with
    | (w', inl e) => (w', inl e)
    | (w', inr a) => k a w'
    end.

Notation "x <- m ;; k" := (bind m (fun x => k))
  (at level 61, m at next level, right associativity).
Notation "m ;;; k" := (bind m (fun _ => k))
  (at level 61, right associativity).

Definition get_dict : M subtract_dict :=
  fun w => (w, inr (chip_subtract_dict w)).

Definition set_dict (d : subtract_dict) : M unit :=
  fun w => ({| chip_subtract_dict := d;
               assign_perfE := assign_perfE w;
               calls := calls w |}, inr tt).

Definition get_perfE : M (list string) :=
  fun w => (w, inr (assign_perfE w)).

Definition set_perfE (l : list string) : M unit :=
  fun w => ({| chip_subtract_dict := chip_subtract_dict w;
               assign_perfE := l;
               calls := calls w |}, inr tt).

(** [for x in l: body(x)]. *)
Fixpoint for_each {A} (l : list A) (body : A -> M unit) : M unit :=
  match l with
  | [] => ret tt
  | x :: l' => body x ;;; for_each l' body
  end.

Definition when (b : bool) (m : M unit) : M unit :=
  if b then m else ret tt.

(** [str(n)] for an integer. *)
Definition str (n : Z) : string := NilZero.string_of_int (Z.to_int n).

(** Truth value of a float. *)
Definition truthy (x : Q) : bool := negb (Qeq_bool x 0).

Definition NAME_DELIM : string := "_".

(** [shapely_polygon.bounds]. *)
Definition bounds (ext : list point) : Q * Q * Q * Q :=
  match ext with
  | [] => (0, 0, 0, 0)
  | p :: ps =>
      fold_left
        (fun '(x_min, y_min, x_max, y_max) q =>
           (Qmin x_min (fst q), Qmin y_min (snd q),
            Qmax x_max (fst q), Qmax y_max (snd q)))
        ps (fst p, snd p, fst p, snd p)
  end.

Section Methods.

Variable host : Host.

(** One call on the modeler: it is logged, and the modeler's reply
    decides whether the statement returns or raises. *)
Definition call_modeler (c : call) : M handle :=
  fun w =>
    let w' := {| chip_subtract_dict := chip_subtract_dict w;
                 assign_perfE := assign_perfE w;
                 calls := calls w ++ [c] |} in
    match modeler host (calls w) c with
    | Return h => (w', inr h)
    | Raise e => (w', inl e)
    end.

Definition parse_point (p : point) : point :=
  (parse_units host (fst p), parse_units host (snd p)).

(** Lines 271-279 and 325-331: the bookkeeping that closes both element
    renderers; [metal] is the condition of the final [if]. *)
Definition record_element (q : qgeom) (name : string) (metal : bool)
    : M unit :=
  d <- get_dict ;;
  when (negb (dict_contains d (chip q))) (set_dict (dict_set d (chip q) [])) ;;;
  when (subtract_flag q)
    (d <- get_dict ;;
     set_dict (dict_set d (chip q) (set_add (dict_get d (chip q)) name))) ;;;
  when metal
    (l <- get_perfE ;; set_perfE (l ++ [name])).

(** Lines 255-262 and 307-314. *)
Definition fillet_element (q : qgeom) (points : list point)
    (isclosed : bool) (poly_ansys : handle) : M unit :=
  let qc_fillet := round (fillet q) 7 in
  when (Qltb 0 qc_fillet)
    (let qc_fillet := parse_units host qc_fillet in
     let idxs_to_fillet :=
       good_fillet_idxs points qc_fillet (PRECISION host) isclosed in
     match idxs_to_fillet with
     | [] => ret tt
     | _ :: _ =>
         _ <- call_modeler (_fillet qc_fillet idxs_to_fillet poly_ansys) ;;
         ret tt
     end).

(** [render_element_poly] (lines 221-279). *)
Definition render_element_poly (q : qgeom) : M unit :=
  match geom q with
  | Polygon exterior interiors =>
      let transparency := 0 in
      let qc_name := "Q" ++ str (component q) in
      let qc_elt := get_clean_name (name q) in
      let qc_chip_z := parse_units host (get_chip_z host (chip q)) in
      let name := qc_name ++ NAME_DELIM ++ qc_elt in
      let points := map parse_point exterior in
      let points_3d := to_vec3D host points qc_chip_z in
      poly_ansys <-
        (if is_rectangle host (geom q)
         then
           let '(x_min, y_min, x_max, y_max) := bounds exterior in
           poly_ansys <-
             call_modeler
               (draw_rect_corner
                  [parse_units host x_min; parse_units host y_min;
                   parse_units host qc_chip_z]
                  (parse_units host (x_max - x_min))
                  (parse_units host (y_max - y_min))
                  (parse_units host qc_chip_z)
                  transparency) ;;
           _ <- call_modeler (rename_obj poly_ansys name) ;;
           ret poly_ansys
         else
           poly_ansys <-
             call_modeler
               (draw_polyline (slice_m1 points_3d) true (Some transparency)) ;;
           call_modeler (rename poly_ansys name)) ;;
      fillet_element q points true poly_ansys ;;;
      when (0 <? List.length interiors)%nat
        (for_each interiors
           (fun x =>
              let interior_points_3d :=
                to_vec3D host (map parse_point x) qc_chip_z in
              inner_shape <-
                call_modeler
                  (draw_polyline (slice_m1 interior_points_3d) true None) ;;
              _ <- call_modeler (subtract name [inner_shape]) ;;
              ret tt)) ;;;
      record_element q name (negb (subtract_flag q) && negb (helper q))
  | _ => raise AttributeError
  end.

(** The sweep profile of lines 317-321: a short segment across the
    start of the path. *)
Definition sweep_profile (points : list point) (qc_width : Q)
    : M (list point3) :=
  match points with
  | (x0, y0) :: (x1, y1) :: _ =>
      let vlen :=
        math_sqrt host ((x1 - x0) * (x1 - x0) + (y1 - y0) * (y1 - y0)) in
      if Qeq_bool (2 * vlen) 0 then raise ZeroDivisionError
      else
        let k := qc_width / (2 * vlen) in
        ret [ (x0 + k * (y0 - y1), y0 + k * (x1 - x0), 0 + k * 0);
              (x0 + k * (y1 - y0), y0 + k * (x0 - x1), 0 + k * 0) ]
  | _ => raise IndexError
  end.

(** [render_element_path] (lines 281-331). *)
Definition render_element_path (q : qgeom) : M unit :=
  match geom q with
  | LineString coords =>
      let transparency := 0 in
      let qc_name := "Q" ++ str (component q) in
      let qc_elt := get_clean_name (name q) in
      let qc_chip_z := parse_units host (get_chip_z host (chip q)) in
      let name := qc_name ++ NAME_DELIM ++ qc_elt in
      let qc_width := parse_units host (width q) in
      let points := map parse_point coords in
      let points_3d := to_vec3D host points qc_chip_z in
      poly_ansys <-
        call_modeler (draw_polyline points_3d false (Some transparency)) ;;
      poly_ansys <- call_modeler (rename poly_ansys name) ;;
      fillet_element q points false poly_ansys ;;;
      when (truthy qc_width)
        (profile <- sweep_profile points qc_width ;;
         shortline <- call_modeler (draw_polyline profile false None) ;;
         _ <- call_modeler (_sweep_along_path shortline poly_ansys) ;;
         ret tt) ;;;
      record_element q name
        (truthy (width q) && negb (subtract_flag q) && negb (helper q))
  | _ => raise AttributeError
  end.

(** [render_element] (lines 207-219). *)
Definition render_element (q : qgeom) : M unit :=
  match geom q with
  | Polygon _ _ => render_element_poly q
  | LineString _ => render_element_path q
  | OtherGeometry _ => ret tt
  end.

(** [render_components] (lines 186-205). *)
Definition render_components (table_type : string)
    (selection : option (list string)) : M unit :=
  let selection := match selection with Some (x :: l) => x :: l | _ => [] end in
  let table := tables host table_type in
  let table :=
    match selection with
    | [] => table
    | _ :: _ =>
        let '(qcomp_ids, case) := get_unique_component_ids host selection in
        if negb (case =? 1)%Z
        then filter (fun q => existsb (Z.eqb (component q)) qcomp_ids) table
        else table
    end in
  for_each table render_element.

(** [render_tables] (lines 175-184). *)
Definition render_tables (selection : option (list string)) : M unit :=
  for_each (get_element_types host)
           (fun table_type => render_components table_type selection).

(** The body of the loop of [render_chips] (lines 344-364); the
    constant colour, transparency and wireframe arguments of the last
    call are left out. *)
Definition render_chip (chip_name : string) : M unit :=
  match _chips host chip_name with
  | None => raise (KeyError chip_name)
  | Some material =>
      let transparency := 0 in
      let p := get_chip_size host chip_name in
      let origin := map (parse_units host)
                        [center_x p; center_y p; center_z p] in
      let o0 := parse_units host (center_x p) in
      let o1 := parse_units host (center_y p) in
      let s0 := parse_units host (size_x p) in
      let s1 := parse_units host (size_y p) in
      let s2 := parse_units host (size_z p) in
      let v0 := parse_units host (sample_holder_top p) in
      let v1 := parse_units host (sample_holder_bottom p) in
      when (String.eqb chip_name "main")
        (_ <- call_modeler
                (draw_box_center [o0; o1; (v0 - v1) / 2]
                                 [s0; s1; 0 + v0 + v1]
                                 "sample_holder" None) ;;
         ret tt) ;;;
      _ <- call_modeler
             (draw_rect_center origin s0 s1 (chip_name ++ "_plane")
                               transparency) ;;
      d <- get_dict ;;
      when (match dict_get d chip_name with [] => false | _ => true end)
        (l <- get_perfE ;; set_perfE (l ++ [chip_name ++ "_plane"])) ;;;
      _ <- call_modeler
             (draw_box_center [o0; o1; s2 / 2] [s0; s1; - s2]
                              chip_name (Some material)) ;;
      ret tt
  end.

(** [render_chips] (lines 333-364). *)
Definition render_chips : M unit :=
  d <- get_dict ;;
  for_each (map fst d) render_chip.

(** [subtract_from_ground] (lines 366-373). *)
Definition subtract_from_ground : M unit :=
  d <- get_dict ;;
  for_each d
    (fun '(chip, shapes) =>
       match shapes with
       | [] => ret tt
       | _ :: _ =>
           _ <- call_modeler (subtract (chip ++ "_plane") shapes) ;;
           ret tt
       end).

(** [metallize] (lines 375-379). *)
Definition metallize : M unit :=
  l <- get_perfE ;;
  _ <- call_modeler (assign_perfect_E l) ;;
  ret tt.

(** [render_design] (lines 156-173). *)
Definition render_design (selection : option (list string)) : M unit :=
  set_dict [] ;;;
  set_perfE [] ;;;
  render_tables selection ;;;
  render_chips ;;;
  subtract_from_ground ;;;
  metallize.

End Methods.

End Renderer.

(* ================================================================== *)
(** ** Observing a render pass *)
(* ================================================================== *)

Module Trace.

Import Modeler Renderer.
Open Scope list_scope.

(** The calls a method body makes when started in [w]. *)
Definition issued {A} (m : M A) (w : world) : list call :=
  skipn (List.length (calls w)) (calls (fst (m w))).

(** The body returns (it does not raise). *)
Definition completes {A} (m : M A) (w : world) : Prop :=
  exists a, snd (m w) = inr a.

(** [m] only appends to the log, and every call it appends satisfies
    [P]. *)
Definition emits (P : call -> Prop) {A} (m : M A) : Prop :=
  forall w, exists new,
    calls (fst (m w)) = calls w ++ new /\ Forall P new.

(** Whenever a call made by [m] is answered with an exception, it is the
    last call [m] makes and [m] raises that very exception. *)
Definition propagates (host : Host) {A} (m : M A) : Prop :=
  forall w, exists new,
    calls (fst (m w)) = calls w ++ new /\
    forall pre c post e,
      new = pre ++ c :: post ->
      modeler host (calls w ++ pre) c = Raise e ->
      post = [] /\ snd (m w) = inl e.

(** The world with both accumulators emptied and the log kept. *)
Definition fresh_world (w : world) : world :=
  {| chip_subtract_dict := []; assign_perfE := []; calls := calls w |}.

(** Calls made while an element is drawn: drawing, renaming, filleting,
    sweeping, and cutting one interior ring out of the element. *)
Definition element_call (c : call) : Prop :=
  match c with
  | draw_rect_corner _ _ _ _ _ | rename_obj _ _ | draw_polyline _ _ _
  | rename _ _ | _fillet _ _ _ | _sweep_along_path _ _ => True
  | subtract _ [_] => True
  | _ => False
  end.

(** Calls that draw a chip: its plane, its box, the vacuum box. *)
Definition chip_call (c : call) : Prop :=
  match c with
  | draw_box_center _ _ _ _ | draw_rect_center _ _ _ _ _ => True
  | _ => False
  end.

(** A subtraction of a non-empty list of shapes from a chip's plane. *)
Definition ground_call (c : call) : Prop :=
  match c with
  | subtract blank (_ :: _) => exists chip, blank = (chip ++ "_plane")%string
  | _ => False
  end.

Definition metal_call (c : call) : Prop :=
  match c with assign_perfect_E _ => True | _ => False end.

(** What holds of a [_fillet] call made for the row [q]. *)
Definition fillet_guarded (host : Host) (q : qgeom) (c : call) : Prop :=
  match c with
  | _fillet radius vertex_index _ =>
      (0 < Py.round (fillet q) 7)%Q /\
      vertex_index <> [] /\
      radius = parse_units host (Py.round (fillet q) 7) /\
      exists points isclosed,
        vertex_index =
        Fillet.good_fillet_idxs points radius (PRECISION host) isclosed
  | _ => True
  end.

End Trace.

(* ================================================================== *)
(** ** Sample inputs *)
(* ================================================================== *)

Module Examples.

Import Py Fillet Modeler Renderer.
Open Scope Q_scope.

(** The square with corner [(x, y)] and first side [(a, b)], counter
    clockwise. *)
Definition square (x y a b : Q) : list point :=
  [ (x, y); (x + a, y + b); (x + a - b, y + b + a); (x - b, y + a) ].

(** An open polyline with one corner and two edges of length 1.5. *)
Definition elbow : list point :=
  [ (0, 0); (3 # 2, 0); (3 # 2, 3 # 2) ].

(** The unit square as shapely lists a ring: the first vertex again at
    the end. *)
Definition unit_ring : list point := square 0 0 1 0 ++ [(0, 0)].

(** A square whose side is just below one unit. *)
Definition near_square : list point :=
  square 0 0 (9999999996 # 10000000000) 0.

Definition near_radius : Q := 4999999999 # 10000000000.

(** A modeler that names what it draws and refuses to cut a second
    time from the same object. *)
Definition demo_modeler (log : list call) (c : call) : reply :=
  match c with
  | rename _ n => Return n
  | draw_rect_center _ _ _ n _ => Return n
  | draw_box_center _ _ n _ => Return n
  | subtract b _ =>
      if existsb (fun c' => match c' with
                            | subtract b' _ => String.eqb b b'
                            | _ => false
                            end) log
      then Raise (External "already cut")
      else Return b
  | _ => Return "obj"%string
  end.

Definition pad : qgeom :=
  {| component := 1; name := "pad 1";
     geom := Polygon [(0, 0); (1, 0); (1, 2); (0, 2); (0, 0)] [];
     chip := "main"; fillet := 1 # 10; width := 0;
     subtract_flag := false; helper := false |}.

Definition trace_line : qgeom :=
  {| component := 1; name := "9cut";
     geom := LineString [(0, 0); (2, 0); (2, 2)];
     chip := "main"; fillet := 1 # 10; width := 1 # 10;
     subtract_flag := true; helper := false |}.

Definition marker : qgeom :=
  {| component := 2; name := "x";
     geom := OtherGeometry "Point";
     chip := "main"; fillet := 0; width := 0;
     subtract_flag := true; helper := false |}.

Definition demo : Host :=
  {| parse_units := fun x => x * (1 # 1000);
     math_sqrt := fun x =>
       inject_Z (Z.sqrt (Qfloor (x * pow10 18))) / pow10 9;
     modeler := demo_modeler;
     to_vec3D := fun pts z => map (fun p => (fst p, snd p, z)) pts;
     is_rectangle := fun _ => false;
     get_unique_component_ids := fun _ => ([], 1%Z);
     get_element_types := ["path"; "poly"]%string;
     tables := fun t => if String.eqb t "poly"
                        then [pad; trace_line; marker] else [];
     get_chip_z := fun _ => 0;
     _chips := fun c => if String.eqb c "main" then Some "silicon"%string
                        else None;
     get_chip_size := fun _ =>
       {| center_x := 0; center_y := 0; center_z := 0;
          size_x := 9; size_y := 6; size_z := - (3 # 4);
          sample_holder_top := 1; sample_holder_bottom := 1 |};
     PRECISION := 9 |}.

Definition empty_world : world :=
  {| chip_subtract_dict := []; assign_perfE := []; calls := [] |}.

Definition used_world : world :=
  {| chip_subtract_dict := [("old", ["a"])]%string;
     assign_perfE := ["zz"]%string;
     calls := [] |}.

End Examples.

(* ================================================================== *)
(** ** What a method does to the accumulators *)
(* ================================================================== *)

Module Effects.

Import Py Fillet CleanName Modeler Renderer Trace.
Open Scope list_scope.

(** The name under which an element is known to Ansys (lines 231-237 and
    291-297): [f'{qc_name}{NAME_DELIM}{qc_elt}']. *)
Definition element_name (q : qgeom) : string :=
  (("Q" ++ str (component q)) ++ NAME_DELIM ++ get_clean_name (name q))%string.

(** The condition under which an element is put on [assign_perfE]
    (lines 278 and 330). *)
Definition metallic (q : qgeom) : bool :=
  match geom q with
  | Polygon _ _ => negb (subtract_flag q) && negb (helper q)
  | LineString _ =>
      truthy (width q) && negb (subtract_flag q) && negb (helper q)
  | OtherGeometry _ => false
  end.

(** The row is drawn: its geometry is a Polygon or a LineString. *)
Definition is_shape (q : qgeom) : bool :=
  match geom q with
  | OtherGeometry _ => false
  | _ => true
  end.

(** The rows of one table that [render_components] goes through (lines
    195-202): all of them without a selection or in case 1, else those of
    the selected components. *)
Definition selected_table (host : Host) (table_type : string)
    (selection : option (list string)) : list qgeom :=
  let selection := match selection with Some (x :: l) => x :: l | _ => [] end in
  let table := tables host table_type in
  match selection with
  | [] => table
  | _ :: _ =>
      let '(qcomp_ids, case) := get_unique_component_ids host selection in
      if negb (case =? 1)%Z
      then filter (fun q => existsb (Z.eqb (component q)) qcomp_ids) table
      else table
  end.

(** The rows [render_tables] goes through, in its order. *)
Definition selected_rows (host : Host) (selection : option (list string))
    : list qgeom :=
  flat_map (fun table_type => selected_table host table_type selection)
           (get_element_types host).

(** Both accumulators of [w'] are those of [w]. *)
Definition same_accumulators (w w' : world) : Prop :=
  chip_subtract_dict w' = chip_subtract_dict w /\
  assign_perfE w' = assign_perfE w.

(** The body raises. *)
Definition raises {A} (m : M A) (w : world) : Prop :=
  exists e, snd (m w) = inl e.

(** [m] relates the accumulators it finds, the accumulators it leaves and
    its outcome by [R]. *)
Definition accumulates {A}
    (R : subtract_dict * list string -> subtract_dict * list string ->
         exn + A -> Prop) (m : M A) : Prop :=
  forall w,
    R (chip_subtract_dict w, assign_perfE w)
      (chip_subtract_dict (fst (m w)), assign_perfE (fst (m w)))
      (snd (m w)).

(** [m] never touches the accumulators. *)
Definition framed {A} (m : M A) : Prop :=
  accumulates (fun before after _ => after = before) m.

(** What rendering the element [q] does to the accumulators: nothing if
    it raises; if it returns, the chip of [q] is a key of the dictionary,
    the element's name is in the chip's set when [q] is to be subtracted,
    the other keys are as before, and the name is appended to
    [assign_perfE] when the element is metallic. *)
Definition element_effect (q : qgeom)
    (before after : subtract_dict * list string) (out : exn + unit) : Prop :=
  match out with
  | inl _ => after = before
  | inr _ =>
      dict_contains (fst after) (chip q) = true /\
      dict_get (fst after) (chip q) =
        (if subtract_flag q
         then set_add (dict_get (fst before) (chip q)) (element_name q)
         else dict_get (fst before) (chip q)) /\
      (forall k, k <> chip q ->
         dict_contains (fst after) k = dict_contains (fst before) k /\
         dict_get (fst after) k = dict_get (fst before) k) /\
      snd after =
        (if metallic q then snd before ++ [element_name q] else snd before)
  end.

(** The calls [subtract_from_ground] is to make for a dictionary: one per
    chip with a non-empty set, in the order of the dictionary. *)
Definition ground_subtractions (d : subtract_dict) : list call :=
  map (fun '(chip, shapes) => subtract (chip ++ "_plane")%string shapes)
      (filter (fun '(_, shapes) => match shapes with [] => false | _ => true end)
              d).

(** The planes [render_chips] puts on [assign_perfE]: those of the keys
    [chip_names] whose set in [d] is not empty. *)
Definition ground_planes (d : subtract_dict) (chip_names : list string)
    : list string :=
  map (fun chip_name => (chip_name ++ "_plane")%string)
      (filter (fun chip_name =>
                 match dict_get d chip_name with [] => false | _ => true end)
              chip_names).

(** The call is a [_fillet]. *)
Definition is_fillet (c : call) : bool :=
  match c with
  | _fillet _ _ _ => true
  | _ => false
  end.

(** A name: a capital Q, then letters, digits and underscores. *)
Definition ansys_name (n : string) : bool :=
  match n with
  | String c _ => Ascii.eqb c "Q" && clean n
  | EmptyString => false
  end.

(** No character of [s] is a letter or an underscore. *)
Definition headless (s : string) : bool :=
  all_chars (fun c => negb (head_char c)) s.



(** The calls of one round of [render_chips] (lines 344-364) for a chip
    of the design: the vacuum box for the chip [main], then the chip's
    plane, then the chip's box.  A chip the design does not know gets
    none. *)
Definition chip_drawings (host : Host) (chip_name : string) : list call :=
  match _chips host chip_name with
  | None => []
  | Some material =>
      let p := get_chip_size host chip_name in
      let o0 := parse_units host (center_x p) in
      let o1 := parse_units host (center_y p) in
      let o2 := parse_units host (center_z p) in
      let s0 := parse_units host (size_x p) in
      let s1 := parse_units host (size_y p) in
      let s2 := parse_units host (size_z p) in
      let v0 := parse_units host (sample_holder_top p) in
      let v1 := parse_units host (sample_holder_bottom p) in
      (if String.eqb chip_name "main"
       then [draw_box_center [o0; o1; ((v0 - v1) / 2)%Q]
                             [s0; s1; (0 + v0 + v1)%Q]
                             "sample_holder" None]
       else [])
      ++ [ draw_rect_center [o0; o1; o2] s0 s1
                            (chip_name ++ "_plane")%string 0%Q;
           draw_box_center [o0; o1; (s2 / 2)%Q] [s0; s1; (- s2)%Q]
                           chip_name (Some material) ]
  end.

(** The body [m] raises only an exception allowed by [E] or the
    exception with which its last call on the modeler was answered. *)
Definition raises_only (host : Host) (E : exn -> Prop) {A} (m : M A)
    : Prop :=
  forall w, exists new,
    calls (fst (m w)) = calls w ++ new /\
    forall e, snd (m w) = inl e ->
      E e \/
      exists pre c,
        new = pre ++ [c] /\ modeler host (calls w ++ pre) c = Raise e.

End Effects.

(* ================================================================== *)
(** ** More sample inputs *)
(* ================================================================== *)

Module Samples.

Import Py Fillet Modeler Renderer Examples.
Open Scope Q_scope.

(** A path without points (an empty LineString), with a width. *)
Definition stub : qgeom :=
  {| component := 3; name := "stub";
     geom := LineString [];
     chip := "main"; fillet := 0; width := 1 # 10;
     subtract_flag := false; helper := false |}.

(** A polygon whose fillet radius is below half of the seventh decimal. *)
Definition thin : qgeom :=
  {| component := 4; name := "thin";
     geom := Polygon [(0, 0); (1, 0); (1, 2); (0, 2); (0, 0)] [];
     chip := "main"; fillet := 4 # 100000000; width := 0;
     subtract_flag := false; helper := false |}.

(** A polygon with two holes; [demo_modeler] refuses the second cut. *)
Definition holed : qgeom :=
  {| component := 5; name := "frame";
     geom := Polygon [(0, 0); (9, 0); (9, 9); (0, 9); (0, 0)]
                     [ [(1, 1); (2, 1); (2, 2); (1, 1)];
                       [(4, 4); (5, 4); (5, 5); (4, 4)] ];
     chip := "main"; fillet := 0; width := 0;
     subtract_flag := true; helper := false |}.

(** The design of [demo] with every table empty. *)
Definition bare : Host :=
  {| parse_units := parse_units demo;
     math_sqrt := math_sqrt demo;
     modeler := modeler demo;
     to_vec3D := to_vec3D demo;
     is_rectangle := is_rectangle demo;
     get_unique_component_ids := get_unique_component_ids demo;
     get_element_types := get_element_types demo;
     tables := fun _ => [];
     get_chip_z := get_chip_z demo;
     _chips := _chips demo;
     get_chip_size := get_chip_size demo;
     PRECISION := PRECISION demo |}.

End Samples.

(* ================================================================== *)
(** ** Facts about slices and index complements *)
(* ================================================================== *)

Module SliceFacts.

Import Py Fillet.

Lemma in_removelast {A} (l : list A) (x : A) :
  In x (removelast l) -> In x l.
Proof.
  induction l as [|a l IH]; simpl; [tauto|].
  destruct l as [|b l]; simpl in *; [tauto|].
  intros [E|HI]; [now left | right; now apply IH].
Qed.

Lemma in_tl {A} (l : list A) (x : A) : In x (tl l) -> In x l.
Proof. destruct l; simpl; tauto. Qed.

Lemma removelast_tl {A} (l : list A) :
  removelast (tl l) = tl (removelast l).
Proof. destruct l as [|a [|b l]]; reflexivity. Qed.

Lemma in_filter_seq (g : nat -> bool) (a n x : nat) :
  In x (filter g (seq a n)) <-> (a <= x < a + n)%nat /\ g x = true.
Proof. rewrite filter_In, in_seq. tauto. Qed.

(** Past the head of an increasing selection, everything is above the
    start of the range. *)
Lemma tl_filter_seq_gt (g : nat -> bool) (n a x : nat) :
  In x (tl (filter g (seq a n))) -> (a < x)%nat.
Proof.
  revert a; induction n as [|n IH]; intros a; simpl; [tauto|].
  destruct (g a); simpl.
  - intros HI. apply in_filter_seq in HI. lia.
  - intros HI. apply IH in HI. lia.
Qed.

(** Before the last element of an increasing selection, everything is
    below the end of the range. *)
Lemma removelast_filter_seq_lt (g : nat -> bool) (n a x : nat) :
  In x (removelast (filter g (seq a n))) -> (x + 1 < a + n)%nat.
Proof.
  revert a; induction n as [|n IH]; intros a; simpl; [tauto|].
  destruct (g a).
  - destruct (filter g (seq (S a) n)) as [|b r] eqn:E; [simpl; tauto|].
    change (removelast (a :: b :: r)) with (a :: removelast (b :: r)).
    intros [<-|HI].
    + assert (Hb : In b (filter g (seq (S a) n))) by (rewrite E; now left).
      apply in_filter_seq in Hb. lia.
    + rewrite <- E in HI. apply IH in HI. lia.
  - intros HI. apply IH in HI. lia.
Qed.

Lemma toggle_numbers_In (numbers : list nat) (totlength i : nat) :
  In i (toggle_numbers numbers totlength) <->
  (i < totlength)%nat /\ ~ In i numbers.
Proof.
  unfold toggle_numbers. rewrite in_filter_seq, negb_true_iff.
  split.
  - intros [Hr Hn]; split; [lia|]. intros HI.
    assert (existsb (Nat.eqb i) numbers = true)
      by (apply existsb_exists; exists i; split; [easy | apply Nat.eqb_refl]).
    congruence.
  - intros [Hr Hn]; split; [lia|].
    destruct (existsb (Nat.eqb i) numbers) eqn:E; [|reflexivity].
    apply existsb_exists in E as (y & Hy & Hiy).
    apply Nat.eqb_eq in Hiy; subst y. contradiction.
Qed.

(** Whatever the list of excluded numbers, [toggle_numbers(..)[1:-1]]
    holds neither [0] nor [totlength - 1]. *)
Lemma slice_toggle_inner (numbers : list nat) (totlength i : nat) :
  In i (slice_1_m1 (toggle_numbers numbers totlength)) ->
  (0 < i)%nat /\ (i + 1 < totlength)%nat.
Proof.
  unfold slice_1_m1, toggle_numbers. intros HI; split.
  - apply in_removelast in HI. now apply tl_filter_seq_gt in HI.
  - rewrite removelast_tl in HI. apply in_tl in HI.
    apply removelast_filter_seq_lt in HI. lia.
Qed.

Lemma seq_ends (n : nat) :
  seq 0 (S (S n)) = 0%nat :: seq 1 n ++ [S n].
Proof.
  change (seq 0 (S (S n))) with (0%nat :: seq 1 (S n)).
  f_equal. rewrite seq_S. reflexivity.
Qed.

(** When neither end index is excluded, the slice [[1:-1]] of the
    complement is the complement taken over the inner indices. *)
Lemma slice_toggle_keeps_inner (numbers : list nat) (n : nat) :
  ~ In 0%nat numbers -> ~ In (S n) numbers ->
  slice_1_m1 (toggle_numbers numbers (S (S n))) =
  filter (fun i => negb (existsb (Nat.eqb i) numbers)) (seq 1 n).
Proof.
  intros H0 Hl. unfold slice_1_m1, toggle_numbers.
  set (g := fun i => negb (existsb (Nat.eqb i) numbers)).
  assert (Hg : forall i, ~ In i numbers -> g i = true).
  { intros i Hi. unfold g.
    destruct (existsb (Nat.eqb i) numbers) eqn:E; [|reflexivity].
    apply existsb_exists in E as (y & Hy & Hiy).
    apply Nat.eqb_eq in Hiy; subst y. contradiction. }
  rewrite seq_ends.
  change (filter g (0%nat :: seq 1 n ++ [S n]))
    with (if g 0%nat then 0%nat :: filter g (seq 1 n ++ [S n])
          else filter g (seq 1 n ++ [S n])).
  rewrite (Hg 0%nat H0), filter_app.
  change (filter g [S n]) with (if g (S n) then [S n] else []).
  rewrite (Hg (S n) Hl).
  apply removelast_last.
Qed.

End SliceFacts.

(* ================================================================== *)
(** ** Facts about rounding *)
(* ================================================================== *)

Module RoundFacts.

Import Py Fillet.
Open Scope Q_scope.

Lemma Qltb_lt (x y : Q) : Qltb x y = true <-> x < y.
Proof.
  unfold Qltb. rewrite Qlt_alt.
  destruct (Qcompare x y); split; congruence.
Qed.

Lemma pow10_pos (p : Z) : 0 < pow10 p.
Proof. unfold pow10. apply Qpower_0_lt. reflexivity. Qed.

(** [round_sqrt s] is an integer nearest to the square root of [s]: the
    root lies between [k - 1/2] and [k + 1/2]. *)
Lemma round_sqrt_nearest (s : Q) :
  0 <= s ->
  let k := inject_Z (round_sqrt s) in
  0 <= k /\ 4 * s <= (2 * k + 1) * (2 * k + 1) /\
  (k == 0 \/ (2 * k - 1) * (2 * k - 1) <= 4 * s).
Proof.
  intros Hs. unfold round_sqrt.
  set (z := Qfloor (4 * s)).
  assert (Hz : (0 <= z)%Z).
  { unfold z. change 0%Z with (Qfloor 0). apply Qfloor_resp_le. lra. }
  pose proof (Z.sqrt_spec z Hz) as Hsq. cbv zeta in Hsq.
  set (t := Z.sqrt z) in *.
  assert (Ht : (0 <= t)%Z) by apply Z.sqrt_nonneg.
  assert (Hlo : inject_Z z <= 4 * s) by apply Qfloor_le.
  assert (Hhi : 4 * s < inject_Z (z + 1)) by apply Qlt_floor.
  assert (Hlo' : inject_Z (t * t) <= 4 * s).
  { eapply Qle_trans; [|exact Hlo]. rewrite <- Zle_Qle. lia. }
  assert (Hhi' : 4 * s < inject_Z ((t + 1) * (t + 1))).
  { eapply Qlt_le_trans; [exact Hhi|]. rewrite <- Zle_Qle. lia. }
  rewrite inject_Z_mult in Hlo', Hhi'. rewrite inject_Z_plus in Hhi'.
  change (inject_Z 1) with 1 in Hhi'.
  pose proof (Z.div_mod t 2 ltac:(lia)) as Hdm.
  pose proof (Z.mod_pos_bound t 2 ltac:(lia)) as Hmb.
  set (m := (t / 2)%Z) in *.
  assert (Hm : (0 <= m)%Z) by (apply Z.div_pos; lia).
  assert (HmQ : 0 <= inject_Z m)
    by (change 0 with (inject_Z 0); rewrite <- Zle_Qle; lia).
  destruct (Z.even t) eqn:Ev.
  - assert (Et : t = (2 * m)%Z).
    { apply Z.even_spec in Ev as [m' Hm']. lia. }
    assert (EtQ : inject_Z t == 2 * inject_Z m).
    { rewrite Et, inject_Z_mult. reflexivity. }
    cbv zeta. rewrite EtQ in Hlo', Hhi'.
    split; [exact HmQ|]. split; [nra|].
    destruct (Z.eq_dec m 0) as [->|Hne]; [left; reflexivity|right].
    assert (1 <= inject_Z m)
      by (change 1 with (inject_Z 1); rewrite <- Zle_Qle; lia).
    nra.
  - assert (Et : t = (2 * m + 1)%Z).
    { rewrite <- Z.negb_odd, negb_false_iff in Ev.
      apply Z.odd_spec in Ev as [m' Hm']. lia. }
    assert (EtQ : inject_Z t == 2 * inject_Z m + 1).
    { rewrite Et, inject_Z_plus, inject_Z_mult. reflexivity. }
    rewrite EtQ in Hlo', Hhi'.
    assert (Hcase : forall k',
      (k' = m /\ 4 * s == inject_Z (t * t)) \/ k' = (m + 1)%Z ->
      0 <= inject_Z k' /\
      4 * s <= (2 * inject_Z k' + 1) * (2 * inject_Z k' + 1) /\
      (inject_Z k' == 0 \/
       (2 * inject_Z k' - 1) * (2 * inject_Z k' - 1) <= 4 * s)).
    { intros k' [[-> Heq]| ->].
      - rewrite inject_Z_mult, EtQ in Heq.
        split; [exact HmQ|]. split; [nra|]. right. nra.
      - rewrite inject_Z_plus. change (inject_Z 1) with 1.
        split; [lra|]. split; [nra|]. right. nra. }
    cbv zeta.
    destruct (Qeq_bool (4 * s) (inject_Z (t * t))) eqn:Eq.
    + apply Qeq_bool_iff in Eq.
      destruct (Z.even m); apply Hcase; auto.
    + apply Hcase; auto.
Qed.

Lemma dist2_nonneg (u v : point) : 0 <= dist2 u v.
Proof.
  unfold dist2.
  generalize (fst u - fst v) (snd u - snd v). intros s t.
  assert (0 <= s * s) by (destruct (Qlt_le_dec s 0); nra).
  assert (0 <= t * t) by (destruct (Qlt_le_dec t 0); nra).
  lra.
Qed.

(** Rounding takes at most half a unit of the last kept digit off a
    distance: a segment at least [L] long has a rounded length of at
    least [L - 0.5 * 10 ** -precision]. *)
Lemma get_distance_lower (u v : point) (p : Z) (L : Q) :
  0 <= L -> L * L <= dist2 u v ->
  L <= get_distance u v p + (1 # 2) / pow10 p.
Proof.
  intros HL HLL. unfold get_distance.
  pose proof (pow10_pos p) as Hu. set (e := pow10 p) in *.
  pose proof (dist2_nonneg u v) as Hd.
  assert (Hee : 0 < e * e) by (apply Qmult_lt_0_compat; assumption).
  assert (HS : 0 <= dist2 u v * (e * e))
    by (apply Qmult_le_0_compat; lra).
  destruct (round_sqrt_nearest _ HS) as (Hk & Hup & _).
  set (k := inject_Z (round_sqrt (dist2 u v * (e * e)))) in *.
  assert (Hprod : L * e <= k + (1 # 2)).
  { destruct (Qlt_le_dec (k + (1 # 2)) (L * e)) as [Hlt|]; [|assumption].
    exfalso.
    assert (H1 : (2 * k + 1) * (2 * k + 1) < (2 * (L * e)) * (2 * (L * e)))
      by nra.
    assert (H2 : (2 * (L * e)) * (2 * (L * e)) <= 4 * (dist2 u v * (e * e))).
    { assert (L * L * (e * e) <= dist2 u v * (e * e)) by nra. nra. }
    lra. }
  assert (Hne : ~ e == 0) by lra.
  apply Qmult_le_r with (z := e); [exact Hu|].
  assert (E : (k / e + (1 # 2) / e) * e == k + (1 # 2))
    by (field; exact Hne).
  rewrite E. exact Hprod.
Qed.

(** A vertex whose two adjacent edges are at least [L] long passes the
    proximity test as soon as [L] exceeds twice the radius by half a unit
    of the last kept digit. *)
Lemma too_close_false (coords : list point) (r : Q) (p : Z) (i : nat)
    (L : Q) :
  let n := Z.of_nat (List.length coords) in
  let c := index origin coords in
  0 <= L -> 2 * r + (1 # 2) / pow10 p <= L ->
  L * L <= dist2 (c (Z.of_nat i - 1)%Z) (c (Z.of_nat i)) ->
  L * L <= dist2 (c (Z.of_nat i)) (c ((Z.of_nat i + 1) mod n)%Z) ->
  too_close coords r p i = false.
Proof.
  intros n c HL Hr H1 H2. unfold too_close.
  destruct (Qltb _ _) eqn:E; [|reflexivity].
  apply Qltb_lt in E. apply Q.min_lt_iff in E.
  pose proof (get_distance_lower _ _ p L HL H1).
  pose proof (get_distance_lower _ _ p L HL H2).
  fold n c in E. destruct E; lra.
Qed.

End RoundFacts.

(* ================================================================== *)
(** ** Fillet eligibility: the properties *)
(* ================================================================== *)

Module FilletFacts.

Import Py Fillet Examples SliceFacts RoundFacts.
Open Scope Q_scope.

Lemma bad_fillet_idxs_In (coords : list point) (r : Q) (p : Z)
    (isclosed : bool) (i : nat) :
  In i (bad_fillet_idxs coords r p isclosed) <->
  too_close coords r p i = true /\
  if isclosed then (i < List.length coords)%nat
  else (0 < i)%nat /\ (i + 1 < List.length coords)%nat.
Proof.
  unfold bad_fillet_idxs.
  destruct isclosed; rewrite in_filter_seq; intuition lia.
Qed.

Lemma bad_open_inner (coords : list point) (r : Q) (p : Z) (i : nat) :
  In i (bad_fillet_idxs coords r p false) ->
  (0 < i)%nat /\ (i + 1 < List.length coords)%nat.
Proof. intros HI. now apply bad_fillet_idxs_In in HI. Qed.

(** C1: for an open polyline, whatever the radius and the precision,
    the list [good_fillet_idxs] returns holds neither index [0] nor
    the last index [len(coords) - 1]. *)
Theorem good_open_no_endpoints (coords : list point) (r : Q) (p : Z) :
  ~ In 0%nat (good_fillet_idxs coords r p false) /\
  ~ In (List.length coords - 1)%nat (good_fillet_idxs coords r p false).
Proof.
  unfold good_fillet_idxs.
  split; intros HI; apply slice_toggle_inner in HI; lia.
Qed.

Lemma good_closed_In (coords : list point) (r : Q) (p : Z) (i : nat) :
  In i (good_fillet_idxs coords r p true) <->
  (i < List.length coords)%nat /\ ~ In i (bad_fillet_idxs coords r p true).
Proof. unfold good_fillet_idxs. apply toggle_numbers_In. Qed.

(** For an open shape the slice [[1:-1]] drops exactly the two end
    indices, because [bad_fillet_idxs] never lists them. *)
Lemma good_open_In (coords : list point) (r : Q) (p : Z) (i : nat) :
  In i (good_fillet_idxs coords r p false) <->
  ((0 < i)%nat /\ (i + 1 < List.length coords)%nat) /\
  ~ In i (bad_fillet_idxs coords r p false).
Proof.
  unfold good_fillet_idxs.
  destruct (List.length coords) as [|[|n]] eqn:En.
  - simpl. split; [tauto | lia].
  - split; [|lia].
    intros HI. apply slice_toggle_inner in HI. lia.
  - rewrite slice_toggle_keeps_inner.
    + rewrite in_filter_seq, negb_true_iff.
      split.
      * intros [Hr Hn]. split; [lia|]. intros HI.
        assert (existsb (Nat.eqb i) (bad_fillet_idxs coords r p false)
                = true)
          by (apply existsb_exists; exists i;
              split; [easy | apply Nat.eqb_refl]).
        congruence.
      * intros (Hlt & Hn). split; [lia|].
        destruct (existsb _ _) eqn:E; [|reflexivity].
        apply existsb_exists in E as (y & Hy & Hiy).
        apply Nat.eqb_eq in Hiy; subst y. contradiction.
    + intros HI. apply bad_open_inner in HI. lia.
    + intros HI. apply bad_open_inner in HI. lia.
Qed.

(** C2: the indices [good_fillet_idxs] returns are exactly the indices
    of the full range [0 .. len(coords) - 1] that [bad_fillet_idxs] does
    not list, less the two end indices when the shape is open. *)
Theorem good_is_complement (coords : list point) (r : Q) (p : Z)
    (isclosed : bool) (i : nat) :
  In i (good_fillet_idxs coords r p isclosed) <->
  (i < List.length coords)%nat /\
  ~ In i (bad_fillet_idxs coords r p isclosed) /\
  (isclosed = false -> i <> 0%nat /\ i <> (List.length coords - 1)%nat).
Proof.
  destruct isclosed.
  - rewrite good_closed_In. intuition congruence.
  - rewrite good_open_In. split.
    + intros [[Hlo Hhi] Hbad]. repeat split; auto; lia.
    + intros (Hlt & Hbad & Hends). destruct (Hends eq_refl) as [H0 Hl].
      repeat split; auto; lia.
Qed.

(** C5, as it is worded, fails on the vertex list of a closed square
    as shapely lists it and [render_element_poly] passes it, with the
    first vertex again at the end: for the unit square and the radius
    0.1 the full index range is 0..4, but the two copies of the first
    vertex are at distance zero from each other, fail the proximity
    test, and the result is 1, 2, 3. *)
Lemma ring_square_loses_ends :
  seq 0 (List.length unit_ring) = [0; 1; 2; 3; 4]%nat /\
  bad_fillet_idxs unit_ring (1 # 10) 9 true = [0; 4]%nat /\
  good_fillet_idxs unit_ring (1 # 10) 9 true = [1; 2; 3]%nat.
Proof. repeat split; reflexivity. Qed.

(** C5, amended: for a closed square given by its four corners, each
    listed once, in either orientation, whose side is at least [L] long,
    where [L] exceeds twice the fillet radius by half a unit of the last
    kept decimal digit or more, no vertex is bad: [good_fillet_idxs]
    returns the full index range. *)
Theorem square_all_good (x y a b r : Q) (p : Z) (L : Q) :
  0 <= L -> L * L <= a * a + b * b ->
  2 * r + (1 # 2) / pow10 p <= L ->
  good_fillet_idxs (square x y a b) r p true = [0; 1; 2; 3]%nat /\
  good_fillet_idxs (rev (square x y a b)) r p true = [0; 1; 2; 3]%nat.
Proof.
  intros HL Hside Hr.
  assert (Hall : forall i, (i < 4)%nat ->
                   too_close (square x y a b) r p i = false).
  { intros i Hi.
    apply too_close_false with (L := L); try assumption;
      destruct i as [|[|[|[|i]]]]; try lia;
      lazy -[Qle Qmult Qplus Qminus]; nra. }
  assert (Hrev : forall i, (i < 4)%nat ->
                   too_close (rev (square x y a b)) r p i = false).
  { intros i Hi.
    apply too_close_false with (L := L); try assumption;
      destruct i as [|[|[|[|i]]]]; try lia;
      lazy -[Qle Qmult Qplus Qminus]; nra. }
  unfold good_fillet_idxs, bad_fillet_idxs.
  change (List.length (rev (square x y a b))) with 4%nat.
  change (List.length (square x y a b)) with 4%nat.
  cbn [seq filter].
  rewrite !Hall, !Hrev by lia. split; reflexivity.
Qed.

Lemma square_all_good_witness :
  good_fillet_idxs (square 0 0 1 0) (1 # 10) 9 true = [0; 1; 2; 3]%nat /\
  good_fillet_idxs (rev (square 0 0 1 0)) (1 # 10) 9 true
  = [0; 1; 2; 3]%nat.
Proof.
  apply (square_all_good 0 0 1 0 (1 # 10) 9 1); vm_compute; discriminate.
Defined.

(** C6, as the spec words it, fails in the band the rounding opens: on
    a closed square of side 0.9999999996 the radius 0.4999999999
    exceeds half the side, yet the side rounds to 1.0 at nine digits,
    which is not less than twice the radius, and vertex 0 is kept. *)
Lemma short_edge_kept :
  (0 < near_radius /\
   dist2 (nth 0 near_square origin) (nth 1 near_square origin)
   < (2 * near_radius) * (2 * near_radius)) /\
  In 0%nat (good_fillet_idxs near_square near_radius 9 true).
Proof.
  split; [split; reflexivity | vm_compute; left; reflexivity].
Qed.

(** C6, amended: when twice the fillet radius exceeds the length,
    rounded to [precision] decimal digits, of an edge adjacent to a
    vertex, that vertex is not in the list [good_fillet_idxs] returns. *)
Theorem short_edge_excluded (coords : list point) (r : Q) (p : Z)
    (isclosed : bool) (i : nat) :
  let n := List.length coords in
  let c := index origin coords in
  let prev := (Z.of_nat i - 1)%Z in
  let next := ((Z.of_nat i + 1) mod Z.of_nat n)%Z in
  (i < n)%nat ->
  get_distance (c prev) (c (Z.of_nat i)) p < 2 * r \/
  get_distance (c (Z.of_nat i)) (c next) p < 2 * r ->
  ~ In i (good_fillet_idxs coords r p isclosed).
Proof.
  intros n c prev next Hi Hshort HI.
  assert (Hclose : too_close coords r p i = true).
  { unfold too_close. apply Qltb_lt. apply Q.min_lt_iff. exact Hshort. }
  destruct isclosed.
  - apply good_closed_In in HI as [_ Hbad].
    apply Hbad, bad_fillet_idxs_In. auto.
  - apply good_open_In in HI as [Hinner Hbad].
    apply Hbad, bad_fillet_idxs_In. auto.
Qed.

Lemma short_edge_excluded_witness :
  ~ In 1%nat (good_fillet_idxs (square 0 0 1 0) (6 # 10) 9 true) /\
  ~ In 1%nat (good_fillet_idxs elbow 1 9 false).
Proof.
  split.
  - apply (short_edge_excluded (square 0 0 1 0) (6 # 10) 9 true 1).
    + vm_compute. lia.
    + left. vm_compute. reflexivity.
  - apply (short_edge_excluded elbow 1 9 false 1).
    + vm_compute. lia.
    + left. vm_compute. reflexivity.
Defined.

End FilletFacts.

(* ================================================================== *)
(** ** Name cleaning: the properties *)
(* ================================================================== *)

Module CleanNameFacts.

Import CleanName.

Lemma sub_outside_all (keep : ascii -> bool) (s : string) :
  all_chars keep (sub_outside keep s) = true.
Proof.
  induction s as [|c s IH]; simpl; [reflexivity|].
  destruct (keep c) eqn:E; simpl; [rewrite E|]; exact IH.
Qed.

Lemma sub_leading_outside_all (p stop : ascii -> bool) (s : string) :
  all_chars p s = true -> all_chars p (sub_leading_outside stop s) = true.
Proof.
  induction s as [|c s IH]; simpl; [reflexivity|].
  intros H. apply andb_true_iff in H as [Hc Hs].
  destruct (stop c); [simpl; now rewrite Hc, Hs | now apply IH].
Qed.

Lemma sub_leading_outside_head (stop : ascii -> bool) (s : string) :
  match sub_leading_outside stop s with
  | EmptyString => True
  | String c _ => stop c = true
  end.
Proof.
  induction s as [|c s IH]; simpl; [exact I|].
  destruct (stop c) eqn:E; [exact E | exact IH].
Qed.

Lemma sub_outside_id (keep : ascii -> bool) (s : string) :
  all_chars keep s = true -> sub_outside keep s = s.
Proof.
  induction s as [|c s IH]; simpl; [reflexivity|].
  intros H. apply andb_true_iff in H as [Hc Hs].
  rewrite Hc, IH; auto.
Qed.

Lemma head_char_not_digit (c : ascii) :
  head_char c = true -> is_digit c = false.
Proof.
  destruct c as [b0 b1 b2 b3 b4 b5 b6 b7].
  destruct b0, b1, b2, b3, b4, b5, b6, b7;
    (reflexivity || (intros H; vm_compute in H; discriminate H)).
Qed.

(** C8: the result of [get_clean_name] holds only letters, digits and
    underscores; its first character, if any, is a letter or an
    underscore and so not a digit; and a string already of that form
    comes back unchanged. *)
Theorem get_clean_name_clean (name : string) :
  all_chars word_char (get_clean_name name) = true /\
  match get_clean_name name with
  | EmptyString => True
  | String c _ => head_char c = true /\ is_digit c = false
  end /\
  (clean name = true -> get_clean_name name = name).
Proof.
  unfold get_clean_name. split; [|split].
  - apply sub_leading_outside_all, sub_outside_all.
  - pose proof (sub_leading_outside_head head_char
                  (sub_outside word_char name)) as H.
    destruct (sub_leading_outside head_char (sub_outside word_char name));
      [exact I|].
    split; [exact H | now apply head_char_not_digit].
  - unfold clean. intros H. apply andb_true_iff in H as [Hall Hhead].
    rewrite (sub_outside_id _ _ Hall).
    destruct name as [|c s]; simpl; [reflexivity|].
    now rewrite Hhead.
Qed.

Lemma get_clean_name_clean_witness :
  get_clean_name "9pad 1-a" = "pad1a"%string /\
  get_clean_name "_pad1a" = "_pad1a"%string.
Proof.
  split; [reflexivity|].
  apply (get_clean_name_clean "_pad1a"). reflexivity.
Defined.

End CleanNameFacts.

(* ================================================================== *)
(** ** The log of modeler calls: composition lemmas *)
(* ================================================================== *)

Module TraceFacts.

Import Modeler Renderer Trace.
Open Scope list_scope.

Lemma issued_app {A} (m : M A) (w : world) (new : list call) :
  calls (fst (m w)) = calls w ++ new -> issued m w = new.
Proof.
  intros E. unfold issued.
  rewrite E, skipn_app, Nat.sub_diag, skipn_all. reflexivity.
Qed.

Lemma emits_issued (P : call -> Prop) {A} (m : M A) (w : world) :
  emits P m ->
  calls (fst (m w)) = calls w ++ issued m w /\ Forall P (issued m w).
Proof.
  intros H. destruct (H w) as (new & E & HP).
  rewrite (issued_app m w new E). auto.
Qed.

Lemma emits_silent (P : call -> Prop) {A} (m : M A) :
  (forall w, calls (fst (m w)) = calls w) -> emits P m.
Proof. intros H w. exists []. rewrite app_nil_r. auto. Qed.

Lemma emits_bind (P : call -> Prop) {A B} (m : M A) (k : A -> M B) :
  emits P m -> (forall a, emits P (k a)) -> emits P (bind m k).
Proof.
  intros Hm Hk w. unfold bind.
  destruct (Hm w) as (n1 & E1 & P1).
  destruct (m w) as [w1 [e|a]]; simpl in *.
  - exists n1. auto.
  - destruct (Hk a w1) as (n2 & E2 & P2).
    exists (n1 ++ n2). rewrite E2, E1, app_assoc. split; [reflexivity|].
    apply Forall_app; auto.
Qed.

Lemma emits_call (host : Host) (P : call -> Prop) (c : call) :
  P c -> emits P (call_modeler host c).
Proof.
  intros Hc w. exists [c]. unfold call_modeler.
  destruct (modeler host (calls w) c); simpl; auto.
Qed.

Lemma emits_when (P : call -> Prop) (b : bool) (m : M unit) :
  emits P m -> emits P (when b m).
Proof. destruct b; simpl; [auto|]. intros _. now apply emits_silent. Qed.

Lemma emits_for_each (P : call -> Prop) {A} (l : list A)
    (body : A -> M unit) :
  (forall x, In x l -> emits P (body x)) -> emits P (for_each l body).
Proof.
  induction l as [|x l IH]; intros Hb; simpl.
  - now apply emits_silent.
  - apply emits_bind; [apply Hb; now left|].
    intros _. apply IH. intros y Hy. apply Hb. now right.
Qed.

Lemma propagates_silent (host : Host) {A} (m : M A) :
  (forall w, calls (fst (m w)) = calls w) -> propagates host m.
Proof.
  intros H w. exists []. rewrite app_nil_r. split; [apply H|].
  intros pre c post e E. destruct pre; discriminate.
Qed.

Lemma propagates_call (host : Host) (c : call) :
  propagates host (call_modeler host c).
Proof.
  intros w. exists [c]. unfold call_modeler. split.
  - destruct (modeler host (calls w) c); reflexivity.
  - intros pre c' post e E Hr.
    destruct pre as [|x pre]; [|destruct pre; discriminate].
    injection E as <- <-. rewrite app_nil_r in Hr. rewrite Hr. auto.
Qed.

(** Where a marked element of [l1 ++ l2] sits: in [l1] or in [l2]. *)
Lemma split_app {A} (l1 l2 pre post : list A) (c : A) :
  l1 ++ l2 = pre ++ c :: post ->
  (exists post1, l1 = pre ++ c :: post1 /\ post = post1 ++ l2) \/
  (exists pre2, pre = l1 ++ pre2 /\ l2 = pre2 ++ c :: post).
Proof.
  revert pre. induction l1 as [|x l1 IH]; intros pre E; simpl in E.
  - right. exists pre. auto.
  - destruct pre as [|y pre]; simpl in E; injection E as -> E.
    + left. exists l1. subst. auto.
    + destruct (IH _ E) as [(p1 & -> & ->)|(p2 & -> & ->)].
      * left. exists p1. auto.
      * right. exists p2. auto.
Qed.

Lemma propagates_bind (host : Host) {A B} (m : M A) (k : A -> M B) :
  propagates host m -> (forall a, propagates host (k a)) ->
  propagates host (bind m k).
Proof.
  intros Hm Hk w. unfold bind.
  destruct (Hm w) as (n1 & E1 & R1).
  destruct (m w) as [w1 [e1|a]]; cbn [fst snd] in *.
  - exists n1. split; [exact E1|].
    intros pre c post e E Hr.
    destruct (R1 _ _ _ _ E Hr) as [-> Heq]. injection Heq as ->. auto.
  - destruct (Hk a w1) as (n2 & E2 & R2).
    exists (n1 ++ n2). split; [rewrite E2, E1; now rewrite app_assoc|].
    intros pre c post e E Hr.
    apply split_app in E as [(p1 & E & ->)|(p2 & -> & E)].
    + destruct (R1 _ _ _ _ E Hr) as [_ Habs]. discriminate.
    + rewrite app_assoc, <- E1 in Hr. exact (R2 _ _ _ _ E Hr).
Qed.

Lemma propagates_when (host : Host) (b : bool) (m : M unit) :
  propagates host m -> propagates host (when b m).
Proof.
  destruct b; simpl; [auto|]. intros _. now apply propagates_silent.
Qed.

Lemma propagates_for_each (host : Host) {A} (l : list A)
    (body : A -> M unit) :
  (forall x, In x l -> propagates host (body x)) ->
  propagates host (for_each l body).
Proof.
  induction l as [|x l IH]; intros Hb; simpl.
  - now apply propagates_silent.
  - apply propagates_bind; [apply Hb; now left|].
    intros _. apply IH. intros y Hy. apply Hb. now right.
Qed.

(** One step through the syntax of a method body. *)
Ltac emits_step :=
  match goal with
  | |- emits _ (bind _ _) => apply emits_bind; [|intros]
  | |- emits _ (when _ _) => apply emits_when
  | |- emits _ (for_each _ _) => apply emits_for_each; intros
  | |- emits _ (call_modeler _ _) => apply emits_call
  | |- emits _ (if ?b then _ else _) => destruct b
  | |- emits _ (match ?x with _ => _ end) => destruct x
  | |- emits _ _ => apply emits_silent; reflexivity
  end.

Ltac propagates_step :=
  match goal with
  | |- propagates _ (bind _ _) => apply propagates_bind; [|intros]
  | |- propagates _ (when _ _) => apply propagates_when
  | |- propagates _ (for_each _ _) => apply propagates_for_each; intros
  | |- propagates _ (call_modeler _ _) => apply propagates_call
  | |- propagates _ (if ?b then _ else _) => destruct b
  | |- propagates _ (match ?x with _ => _ end) => destruct x
  | |- propagates _ _ => apply propagates_silent; reflexivity
  end.

End TraceFacts.

(* ================================================================== *)
(** ** The render pass: the properties *)
(* ================================================================== *)

Module RendererFacts.

Import Py Fillet Modeler Renderer Trace Examples TraceFacts RoundFacts.
Open Scope list_scope.

Section Methods.

Variable host : Host.

(** *** Which calls each method makes *)

Lemma record_element_emits (P : call -> Prop) q n b :
  emits P (record_element q n b).
Proof. unfold record_element. repeat emits_step. Qed.

Lemma fillet_element_emits_element q points isclosed obj :
  emits element_call (fillet_element host q points isclosed obj).
Proof.
  unfold fillet_element. repeat first [emits_step | exact I].
Qed.

Lemma render_element_poly_emits q :
  emits element_call (render_element_poly host q).
Proof.
  unfold render_element_poly.
  repeat first [ apply record_element_emits
               | apply fillet_element_emits_element
               | emits_step | exact I ].
Qed.

Lemma render_element_path_emits q :
  emits element_call (render_element_path host q).
Proof.
  unfold render_element_path, sweep_profile.
  repeat first [ apply record_element_emits
               | apply fillet_element_emits_element
               | emits_step | exact I ].
Qed.

Lemma render_element_emits q :
  emits element_call (render_element host q).
Proof.
  unfold render_element.
  destruct (geom q);
    [ apply render_element_poly_emits
    | apply render_element_path_emits
    | now apply emits_silent ].
Qed.

Lemma render_tables_emits selection :
  emits element_call (render_tables host selection).
Proof.
  unfold render_tables, render_components.
  repeat first [apply render_element_emits | emits_step].
Qed.

Lemma render_chips_emits : emits chip_call (render_chips host).
Proof.
  unfold render_chips, render_chip.
  repeat first [emits_step | exact I].
Qed.

Lemma subtract_from_ground_emits :
  emits ground_call (subtract_from_ground host).
Proof.
  unfold subtract_from_ground.
  repeat first [emits_step | exact I].
  simpl. eexists; reflexivity.
Qed.

Lemma metallize_emits : emits metal_call (metallize host).
Proof. unfold metallize. repeat first [emits_step | exact I]. Qed.

(** *** The accumulators *)

(** C4: [render_design] empties both accumulators before it renders
    anything: it runs its four phases from the world with an empty
    [chip_subtract_dict] and an empty [assign_perfE]; so its outcome
    (final accumulators, calls made, result) does not depend on what the
    accumulators held when it was called, and what an earlier
    [render_design] left in them has no effect on a later one. *)
Theorem render_design_resets (selection : option (list string))
    (w : world) :
  render_design host selection w =
  (_ <- render_tables host selection ;;
   _ <- render_chips host ;;
   _ <- subtract_from_ground host ;;
   metallize host) (fresh_world w)
  /\
  (forall w', calls w' = calls w ->
     render_design host selection w' = render_design host selection w)
  /\
  (forall earlier w0,
     let w1 := fst (render_design host earlier w0) in
     render_design host selection w1 =
     render_design host selection (fresh_world w1)).
Proof.
  split; [reflexivity|]. split.
  - intros [d' l' log'] E. destruct w as [d l log]. simpl in E. subst log'.
    reflexivity.
  - intros earlier w0.
    destruct (fst (render_design host earlier w0)) as [d1 l1 log1].
    reflexivity.
Qed.

(** *** Exceptions *)

Lemma record_element_propagates q n b :
  propagates host (record_element q n b).
Proof. unfold record_element. repeat propagates_step. Qed.

Lemma render_element_poly_propagates q :
  propagates host (render_element_poly host q).
Proof.
  unfold render_element_poly, fillet_element.
  repeat first [apply record_element_propagates | propagates_step].
Qed.

Lemma render_element_path_propagates q :
  propagates host (render_element_path host q).
Proof.
  unfold render_element_path, fillet_element, sweep_profile.
  repeat first [apply record_element_propagates | propagates_step].
Qed.

Lemma render_element_propagates q :
  propagates host (render_element host q).
Proof.
  unfold render_element.
  destruct (geom q);
    [ apply render_element_poly_propagates
    | apply render_element_path_propagates
    | now apply propagates_silent ].
Qed.

Lemma render_components_propagates t selection :
  propagates host (render_components host t selection).
Proof.
  unfold render_components.
  apply propagates_for_each. intros. apply render_element_propagates.
Qed.

Lemma render_tables_propagates selection :
  propagates host (render_tables host selection).
Proof.
  unfold render_tables. apply propagates_for_each. intros.
  apply render_components_propagates.
Qed.

Lemma render_chips_propagates : propagates host (render_chips host).
Proof. unfold render_chips, render_chip. repeat propagates_step. Qed.

Lemma subtract_from_ground_propagates :
  propagates host (subtract_from_ground host).
Proof. unfold subtract_from_ground. repeat propagates_step. Qed.

Lemma metallize_propagates : propagates host (metallize host).
Proof. unfold metallize. repeat propagates_step. Qed.

Lemma render_design_propagates selection :
  propagates host (render_design host selection).
Proof.
  unfold render_design.
  repeat first [ apply render_tables_propagates
               | apply render_chips_propagates
               | apply subtract_from_ground_propagates
               | apply metallize_propagates
               | propagates_step ].
Qed.

(** C7: in each of the eight rendering methods, a call on the modeler
    that raises is the last call the method makes, and the method
    raises that same exception to its caller: none is caught or
    replaced. *)
Theorem modeler_exceptions_propagate (selection : option (list string))
    (table_type : string) (q : qgeom) :
  propagates host (render_design host selection) /\
  propagates host (render_tables host selection) /\
  propagates host (render_components host table_type selection) /\
  propagates host (render_element_poly host q) /\
  propagates host (render_element_path host q) /\
  propagates host (render_chips host) /\
  propagates host (subtract_from_ground host) /\
  propagates host (metallize host).
Proof.
  repeat split;
    auto using render_design_propagates, render_tables_propagates,
      render_components_propagates, render_element_poly_propagates,
      render_element_path_propagates, render_chips_propagates,
      subtract_from_ground_propagates, metallize_propagates.
Qed.

(** *** Rows that are neither polygons nor paths *)

(** C9: for a row whose geometry is neither a Polygon nor a
    LineString, [render_element] returns at once: no call is made on
    the modeler and both accumulators are as they were. *)
Theorem render_element_other_geometry (q : qgeom) (kind : string)
    (w : world) :
  geom q = OtherGeometry kind ->
  render_element host q w = (w, inr tt) /\
  issued (render_element host q) w = [].
Proof.
  intros E. unfold issued, render_element. rewrite E. simpl.
  split; [reflexivity | apply skipn_all].
Qed.

(** *** The guard of [_fillet] *)

Lemma fillet_element_guarded q points isclosed obj :
  emits (fillet_guarded host q)
        (fillet_element host q points isclosed obj).
Proof.
  unfold fillet_element.
  destruct (Qltb 0 (round (fillet q) 7)) eqn:Hpos; simpl;
    [|now apply emits_silent].
  apply Qltb_lt in Hpos.
  destruct (good_fillet_idxs points (parse_units host (round (fillet q) 7))
              (PRECISION host) isclosed) as [|i idxs] eqn:G;
    [now apply emits_silent|].
  apply emits_bind; [|intros; now apply emits_silent].
  apply emits_call. simpl.
  split; [exact Hpos|]. split; [discriminate|]. split; [reflexivity|].
  exists points, isclosed. now rewrite G.
Qed.

Lemma render_element_poly_guarded q :
  emits (fillet_guarded host q) (render_element_poly host q).
Proof.
  unfold render_element_poly.
  repeat first [ apply record_element_emits
               | apply fillet_element_guarded
               | emits_step | exact I ].
Qed.

Lemma render_element_path_guarded q :
  emits (fillet_guarded host q) (render_element_path host q).
Proof.
  unfold render_element_path, sweep_profile.
  repeat first [ apply record_element_emits
               | apply fillet_element_guarded
               | emits_step | exact I ].
Qed.


End Methods.

Lemma render_element_other_geometry_witness :
  render_element demo marker used_world = (used_world, inr tt) /\
  issued (render_element demo marker) used_world = [].
Proof.
  apply (render_element_other_geometry demo marker "Point" used_world).
  reflexivity.
Defined.


End RendererFacts.

(* ================================================================== *)
(** ** Name cleaning: further properties *)
(* ================================================================== *)

Module CleanNameMore.

Import CleanName CleanNameFacts Effects.
Open Scope string_scope.

Lemma sub_outside_app (keep : ascii -> bool) (s t : string) :
  sub_outside keep (s ++ t) = sub_outside keep s ++ sub_outside keep t.
Proof.
  induction s as [|c s IH]; simpl; [reflexivity|].
  destruct (keep c); simpl; now rewrite IH.
Qed.

Lemma sub_leading_outside_id (stop : ascii -> bool) (s : string) :
  match s with EmptyString => True | String c _ => stop c = true end ->
  sub_leading_outside stop s = s.
Proof. destruct s as [|c s]; simpl; [reflexivity|]. now intros ->. Qed.

Lemma head_is_word (c : ascii) : head_char c = true -> word_char c = true.
Proof.
  unfold head_char, word_char. intros H.
  apply orb_true_iff in H as [H|H]; [apply orb_true_iff in H as [H|H]|];
    rewrite H; rewrite ?orb_true_r; reflexivity.
Qed.

(** Deleting the characters outside the word class deletes no letter and
    no underscore. *)
Lemma headless_sub_outside (s : string) :
  headless (sub_outside word_char s) = headless s.
Proof.
  unfold headless. induction s as [|c s IH]; simpl; [reflexivity|].
  destruct (word_char c) eqn:W; simpl; rewrite IH; [reflexivity|].
  destruct (head_char c) eqn:H; [|reflexivity].
  apply head_is_word in H. congruence.
Qed.

Lemma sub_leading_outside_empty (s : string) :
  sub_leading_outside head_char s = EmptyString <-> headless s = true.
Proof.
  unfold headless. induction s as [|c s IH]; simpl; [tauto|].
  destruct (head_char c); simpl; [split; discriminate | exact IH].
Qed.

Lemma sub_leading_outside_app (p s : string) :
  headless p = true ->
  sub_leading_outside head_char (p ++ s) = sub_leading_outside head_char s.
Proof.
  unfold headless. induction p as [|c p IH]; simpl; [reflexivity|].
  intros H. apply andb_true_iff in H as [Hc Hp].
  apply negb_true_iff in Hc. rewrite Hc. now apply IH.
Qed.

Lemma get_clean_name_is_clean (s : string) : clean (get_clean_name s) = true.
Proof.
  unfold clean, get_clean_name. apply andb_true_iff. split.
  - apply sub_leading_outside_all, sub_outside_all.
  - pose proof (sub_leading_outside_head head_char (sub_outside word_char s)) as H.
    destruct (sub_leading_outside head_char (sub_outside word_char s)); auto.
Qed.

(** X1: cleaning a cleaned name changes nothing. *)
Theorem get_clean_name_idempotent (s : string) :
  get_clean_name (get_clean_name s) = get_clean_name s.
Proof.
  pose proof (get_clean_name_is_clean s) as H.
  set (t := get_clean_name s) in *.
  unfold clean in H. apply andb_true_iff in H as [Hall Hhead].
  unfold get_clean_name. rewrite (sub_outside_id _ _ Hall).
  apply sub_leading_outside_id. destruct t; auto.
Qed.

(** X2: the cleaned name is empty exactly when the given name holds no
    letter and no underscore. *)
Theorem get_clean_name_empty (s : string) :
  get_clean_name s = EmptyString <-> headless s = true.
Proof.
  unfold get_clean_name.
  rewrite sub_leading_outside_empty. now rewrite headless_sub_outside.
Qed.

(** X3: a character outside [[0-9a-zA-Z_]] has no effect on the result,
    wherever it stands. *)
Theorem get_clean_name_skips (s t : string) (c : ascii) :
  word_char c = false ->
  get_clean_name (s ++ String c t) = get_clean_name (s ++ t).
Proof.
  intros W. unfold get_clean_name.
  rewrite !sub_outside_app. simpl. now rewrite W.
Qed.

Lemma get_clean_name_skips_witness :
  get_clean_name ("pad" ++ String " " "1") = get_clean_name ("pad" ++ "1").
Proof. apply get_clean_name_skips. reflexivity. Defined.

(** X4: a leading part without letter or underscore is dropped whole,
    digits included. *)
Theorem get_clean_name_drops_prefix (p s : string) :
  headless p = true ->
  get_clean_name (p ++ s) = get_clean_name s.
Proof.
  intros H. unfold get_clean_name.
  rewrite sub_outside_app. apply sub_leading_outside_app.
  now rewrite headless_sub_outside.
Qed.

Lemma get_clean_name_drops_prefix_witness :
  get_clean_name ("12-3 " ++ "pad_2") = get_clean_name "pad_2".
Proof. apply get_clean_name_drops_prefix. reflexivity. Defined.

End CleanNameMore.

(* ================================================================== *)
(** ** Elements and the accumulators *)
(* ================================================================== *)

Module EffectFacts.

Import Py Fillet CleanName Modeler Renderer Trace Effects Samples Examples.
Import TraceFacts.
Open Scope list_scope.

(** *** The dictionary *)

Lemma dict_get_set_same d k v : dict_get (dict_set d k v) k = v.
Proof.
  induction d as [|[k' v'] d IH]; simpl.
  - now rewrite String.eqb_refl.
  - destruct (String.eqb k k') eqn:E; simpl; rewrite E; auto.
Qed.

Lemma dict_get_set_other d k v k' :
  k' <> k -> dict_get (dict_set d k v) k' = dict_get d k'.
Proof.
  intros Hne. induction d as [|[k0 v0] d IH]; simpl.
  - apply String.eqb_neq in Hne. now rewrite Hne.
  - destruct (String.eqb k k0) eqn:E; simpl.
    + apply String.eqb_eq in E; subst k0.
      apply String.eqb_neq in Hne. now rewrite Hne.
    + now rewrite IH.
Qed.

Lemma dict_contains_set_same d k v : dict_contains (dict_set d k v) k = true.
Proof.
  induction d as [|[k' v'] d IH]; simpl.
  - now rewrite String.eqb_refl.
  - destruct (String.eqb k k') eqn:E; simpl; rewrite E; auto.
Qed.

Lemma dict_contains_set_other d k v k' :
  k' <> k -> dict_contains (dict_set d k v) k' = dict_contains d k'.
Proof.
  intros Hne. induction d as [|[k0 v0] d IH]; simpl.
  - apply String.eqb_neq in Hne. now rewrite Hne.
  - destruct (String.eqb k k0) eqn:E; simpl.
    + reflexivity.
    + now rewrite IH.
Qed.

Lemma dict_get_absent d k : dict_contains d k = false -> dict_get d k = [].
Proof.
  induction d as [|[k' v'] d IH]; simpl; [reflexivity|].
  intros H. apply orb_false_iff in H as [E H]. rewrite E. auto.
Qed.

(** *** Composition *)

Lemma accumulates_bind_framed {A B} R (m : M A) (k : A -> M B) :
  framed m -> (forall a, accumulates R (k a)) ->
  (forall acc e, R acc acc (inl e)) ->
  accumulates R (bind m k).
Proof.
  intros Hm Hk Hrefl w. unfold bind.
  specialize (Hm w). cbv beta in Hm.
  destruct (m w) as [w1 [e|a]]; cbn [fst snd] in *.
  - rewrite Hm. apply Hrefl.
  - specialize (Hk a w1). rewrite Hm in Hk. exact Hk.
Qed.

Lemma framed_silent {A} (m : M A) :
  (forall w, fst (m w) = w) -> framed m.
Proof. intros H w. now rewrite H. Qed.

Lemma framed_bind {A B} (m : M A) (k : A -> M B) :
  framed m -> (forall a, framed (k a)) -> framed (bind m k).
Proof. intros Hm Hk. apply accumulates_bind_framed; auto. Qed.

Lemma framed_call host c : framed (call_modeler host c).
Proof.
  intros w. unfold call_modeler.
  destruct (modeler host (calls w) c); reflexivity.
Qed.

Lemma framed_when b m : framed m -> framed (when b m).
Proof. destruct b; simpl; [auto|]. intros _. now apply framed_silent. Qed.

Lemma framed_for_each {A} (l : list A) (body : A -> M unit) :
  (forall x, In x l -> framed (body x)) -> framed (for_each l body).
Proof.
  induction l as [|x l IH]; intros Hb; simpl.
  - now apply framed_silent.
  - apply framed_bind; [apply Hb; now left|].
    intros _. apply IH. intros y Hy. apply Hb. now right.
Qed.

Ltac framed_step :=
  match goal with
  | |- framed (bind _ _) => apply framed_bind; [|intros]
  | |- framed (when _ _) => apply framed_when
  | |- framed (for_each _ _) => apply framed_for_each; intros
  | |- framed (call_modeler _ _) => apply framed_call
  | |- framed (if ?b then _ else _) => destruct b
  | |- framed (match ?x with _ => _ end) => destruct x
  | |- framed _ => apply framed_silent; reflexivity
  end.

Section Elements.

Variable host : Host.

Lemma fillet_element_framed q points isclosed obj :
  framed (fillet_element host q points isclosed obj).
Proof. unfold fillet_element. repeat framed_step. Qed.

(** The bookkeeping never raises; it registers the chip, adds the name to
    the chip's set when the row is to be subtracted and appends it to
    [assign_perfE] when [metal] holds. *)
Lemma record_element_effect (q : qgeom) (n : string) (metal : bool) :
  accumulates
    (fun (before after : subtract_dict * list string) (out : (exn + unit)%type) =>
       out = inr tt /\
       dict_contains (fst after) (chip q) = true /\
       dict_get (fst after) (chip q) =
         (if subtract_flag q then set_add (dict_get (fst before) (chip q)) n
          else dict_get (fst before) (chip q)) /\
       (forall k, k <> chip q ->
          dict_contains (fst after) k = dict_contains (fst before) k /\
          dict_get (fst after) k = dict_get (fst before) k) /\
       snd after = (if metal then snd before ++ [n] else snd before))
    (record_element q n metal).
Proof.
  intros [d l log]. unfold record_element, bind, when, get_dict, set_dict,
    get_perfE, set_perfE, ret. cbn [chip_subtract_dict assign_perfE calls fst snd].
  destruct (dict_contains d (chip q)) eqn:C; cbn [negb fst snd chip_subtract_dict assign_perfE calls];
    destruct (subtract_flag q); cbn [fst snd chip_subtract_dict assign_perfE calls];
    destruct metal; cbn [fst snd chip_subtract_dict assign_perfE calls];
    rewrite ?dict_get_set_same, ?dict_contains_set_same;
    repeat split; auto;
    try (rewrite ?dict_contains_set_other, ?dict_get_set_other by assumption;
         reflexivity);
    rewrite (dict_get_absent _ _ C); reflexivity.
Qed.

Lemma record_element_element_effect q :
  accumulates (element_effect q) (record_element q (element_name q) (metallic q)).
Proof.
  intros w. pose proof (record_element_effect q (element_name q) (metallic q) w) as H.
  cbv beta in H. destruct H as (Hout & H). rewrite Hout. exact H.
Qed.


Lemma element_effect_raise q acc (e : exn) : element_effect q acc acc (inl e).
Proof. reflexivity. Qed.

Lemma render_element_poly_effect q exterior interiors :
  geom q = Polygon exterior interiors ->
  accumulates (element_effect q) (render_element_poly host q).
Proof.
  intros G. unfold render_element_poly. rewrite G.
  assert (Hm : metallic q = negb (subtract_flag q) && negb (helper q))
    by (unfold metallic; now rewrite G).
  rewrite <- Hm.
  change (("Q" ++ str (component q)) ++ NAME_DELIM ++ get_clean_name (name q))%string
    with (element_name q).
  apply accumulates_bind_framed;
    [repeat framed_step | intros | intros; apply element_effect_raise].
  apply accumulates_bind_framed;
    [apply fillet_element_framed | intros | intros; apply element_effect_raise].
  apply accumulates_bind_framed;
    [repeat framed_step | intros | intros; apply element_effect_raise].
  apply record_element_element_effect.
Qed.

Lemma render_element_path_effect q coords :
  geom q = LineString coords ->
  accumulates (element_effect q) (render_element_path host q).
Proof.
  intros G. unfold render_element_path. rewrite G.
  assert (Hm : metallic q =
               truthy (width q) && negb (subtract_flag q) && negb (helper q))
    by (unfold metallic; now rewrite G).
  rewrite <- Hm.
  change (("Q" ++ str (component q)) ++ NAME_DELIM ++ get_clean_name (name q))%string
    with (element_name q).
  apply accumulates_bind_framed;
    [apply framed_call | intros | intros; apply element_effect_raise].
  apply accumulates_bind_framed;
    [apply framed_call | intros | intros; apply element_effect_raise].
  apply accumulates_bind_framed;
    [apply fillet_element_framed | intros | intros; apply element_effect_raise].
  apply accumulates_bind_framed;
    [unfold sweep_profile; repeat framed_step | intros
    | intros; apply element_effect_raise].
  apply record_element_element_effect.
Qed.

Lemma render_element_effect q :
  is_shape q = true ->
  accumulates (element_effect q) (render_element host q).
Proof.
  intros S. unfold render_element, is_shape in *.
  destruct (geom q) as [ext ints|coords|kind] eqn:G; [| |discriminate].
  - intros w. generalize (render_element_poly_effect q ext ints G w).
    unfold render_element_poly. now rewrite G.
  - intros w. generalize (render_element_path_effect q coords G w).
    unfold render_element_path. now rewrite G.
Qed.

Lemma render_element_other q w :
  is_shape q = false -> render_element host q w = (w, inr tt).
Proof.
  unfold render_element, is_shape.
  destruct (geom q); [discriminate | discriminate | reflexivity].
Qed.

(** X6: an element that fails to render leaves no trace in the
    accumulators: if [render_element] raises, [chip_subtract_dict] and
    [assign_perfE] are what they were before the call. *)
Theorem render_element_raise_keeps_accumulators (q : qgeom) (w : world) :
  raises (render_element host q) w ->
  same_accumulators w (fst (render_element host q w)).
Proof.
  intros [e He]. destruct (is_shape q) eqn:S.
  - pose proof (render_element_effect q S w) as H.
    rewrite He in H. simpl in H. injection H as Hd Hl. now split.
  - rewrite (render_element_other q w S) in He. discriminate He.
Qed.

(** X7: what a Polygon or LineString row that renders without exception
    leaves in the accumulators: its chip is a key of [chip_subtract_dict]
    (also when nothing is to be subtracted), its name is added to the
    chip's set exactly when the row has [subtract] set, no other key is
    touched, and its name is appended to [assign_perfE] exactly when the
    row is neither subtracted nor a helper (and, for a path, has a
    non-zero width). *)
Theorem render_element_records (q : qgeom) (w : world) :
  is_shape q = true ->
  completes (render_element host q) w ->
  let w' := fst (render_element host q w) in
  dict_contains (chip_subtract_dict w') (chip q) = true /\
  dict_get (chip_subtract_dict w') (chip q) =
    (if subtract_flag q
     then set_add (dict_get (chip_subtract_dict w) (chip q)) (element_name q)
     else dict_get (chip_subtract_dict w) (chip q)) /\
  (forall k, k <> chip q ->
     dict_contains (chip_subtract_dict w') k =
       dict_contains (chip_subtract_dict w) k /\
     dict_get (chip_subtract_dict w') k = dict_get (chip_subtract_dict w) k) /\
  assign_perfE w' =
    (if metallic q then assign_perfE w ++ [element_name q]
     else assign_perfE w).
Proof.
  intros S [[] Hc].
  pose proof (render_element_effect q S w) as H.
  rewrite Hc in H. exact H.
Qed.

End Elements.

Lemma render_element_raise_keeps_accumulators_witness :
  same_accumulators used_world (fst (render_element demo stub used_world)).
Proof.
  apply render_element_raise_keeps_accumulators.
  exists IndexError. reflexivity.
Defined.

Lemma render_element_records_witness :
  let w' := fst (render_element demo trace_line empty_world) in
  dict_get (chip_subtract_dict w') "main" = ["Q1_cut"%string] /\
  assign_perfE w' = [].
Proof.
  destruct (render_element_records demo trace_line empty_world)
    as (_ & Hget & _ & Hperf).
  - reflexivity.
  - exists tt. reflexivity.
  - split; [exact Hget | exact Hperf].
Defined.

End EffectFacts.

(* ================================================================== *)
(** ** The phases of a pass, one by one *)
(* ================================================================== *)

Module PassFacts.

Import Py Fillet CleanName Modeler Renderer Trace Effects Samples Examples.
Import TraceFacts RoundFacts CleanNameFacts.
Open Scope list_scope.

(** *** Never returning *)

Lemma bind_not_completes_l {A B} (m : M A) (k : A -> M B) w :
  ~ completes m w -> ~ completes (bind m k) w.
Proof.
  unfold completes, bind. intros H [b Hb].
  destruct (m w) as [w1 [e|a]]; cbn [snd] in *; [discriminate|].
  apply H. now exists a.
Qed.

Lemma bind_not_completes_r {A B} (m : M A) (k : A -> M B) w :
  (forall a w1, ~ completes (k a) w1) -> ~ completes (bind m k) w.
Proof.
  unfold completes, bind. intros H [b Hb].
  destruct (m w) as [w1 [e|a]]; cbn [snd] in *; [discriminate|].
  apply (H a w1). now exists b.
Qed.

Lemma bind_run {A B} (m : M A) (k : A -> M B) w w1 out :
  m w = (w1, out) ->
  bind m k w = match out with
               | inl e => (w1, inl e)
               | inr a => k a w1
               end.
Proof. unfold bind. now intros ->. Qed.

(** A loop whose every round returns at once and changes nothing does
    the same. *)
Lemma for_each_skip {A} (l : list A) (body : A -> M unit) :
  (forall x w, In x l -> body x w = (w, inr tt)) ->
  forall w, for_each l body w = (w, inr tt).
Proof.
  induction l as [|y l IH]; intros Hb w; [reflexivity|].
  simpl. unfold bind. rewrite Hb by now left.
  apply IH. intros x w1 Hx. apply Hb. now right.
Qed.

Lemma emits_weaken (P Q : call -> Prop) {A} (m : M A) :
  (forall c, P c -> Q c) -> emits P m -> emits Q m.
Proof.
  intros HPQ Hm w. destruct (Hm w) as (new & E & HP).
  exists new. split; [exact E|]. eapply Forall_impl; eauto.
Qed.

(** *** Python's round *)

(** [round(x, n)] is positive only if [x] exceeds half a unit of the
    [n]-th decimal. *)
Lemma round_pos (x : Q) (n : Z) :
  (0 < round x n)%Q -> (1 # 2 < x * pow10 n)%Q.
Proof.
  unfold round. pose proof (pow10_pos n) as Hp.
  set (y := (x * pow10 n)%Q). intros H.
  assert (Hk : (0 < round_half_even y)%Z).
  { destruct (Z_lt_le_dec 0 (round_half_even y)) as [|Hle]; [assumption|].
    exfalso. rewrite Zle_Qle in Hle. change (inject_Z 0) with 0%Q in Hle.
    assert (inject_Z (round_half_even y) / pow10 n <= 0)%Q.
    { unfold Qdiv.
      setoid_replace 0%Q with (0 * / pow10 n)%Q by ring.
      apply Qmult_le_compat_r; [exact Hle|].
      apply Qlt_le_weak, Qinv_lt_0_compat, Hp. }
    lra. }
  unfold round_half_even in Hk.
  pose proof (Qfloor_le y) as Hf. pose proof (Qlt_floor y) as Hc.
  set (f := Qfloor y) in *.
  destruct (Qcompare (y - inject_Z f) (1 # 2)) eqn:C.
  - apply Qeq_alt in C.
    destruct (Z.even f) eqn:Ev.
    + assert (1 <= inject_Z f)%Q
        by (change 1%Q with (inject_Z 1); rewrite <- Zle_Qle; lia).
      lra.
    + assert (f <> 0%Z) by (intros ->; discriminate Ev).
      assert (1 <= inject_Z f)%Q
        by (change 1%Q with (inject_Z 1); rewrite <- Zle_Qle; lia).
      lra.
  - assert (1 <= inject_Z f)%Q
      by (change 1%Q with (inject_Z 1); rewrite <- Zle_Qle; lia).
    lra.
  - apply Qgt_alt in C.
    assert (0 <= inject_Z f)%Q
      by (change 0%Q with (inject_Z 0); rewrite <- Zle_Qle; lia).
    lra.
Qed.

(** *** Names *)

Lemma all_chars_app (p : ascii -> bool) (s t : string) :
  all_chars p (s ++ t)%string = all_chars p s && all_chars p t.
Proof.
  induction s as [|c s IH]; simpl; [reflexivity|].
  now rewrite IH, andb_assoc.
Qed.

Lemma all_chars_impl (p q : ascii -> bool) (s : string) :
  (forall c, p c = true -> q c = true) ->
  all_chars p s = true -> all_chars q s = true.
Proof.
  intros Hpq. induction s as [|c s IH]; simpl; [reflexivity|].
  intros H. apply andb_true_iff in H as [Hc Hs].
  now rewrite (Hpq _ Hc), IH.
Qed.

Lemma digits_of_uint (d : Decimal.uint) :
  all_chars is_digit (NilEmpty.string_of_uint d) = true.
Proof. induction d; simpl; auto. Qed.

Lemma str_digits (n : Z) : (0 <= n)%Z -> all_chars is_digit (str n) = true.
Proof.
  intros Hn. unfold str. destruct n as [|p|p]; [reflexivity| |lia].
  simpl. unfold NilZero.string_of_uint.
  destruct (Pos.to_uint p) as [|d|d|d|d|d|d|d|d|d|d]; try reflexivity;
    simpl; apply digits_of_uint.
Qed.

Lemma element_name_ansys (q : qgeom) :
  (0 <= component q)%Z -> ansys_name (element_name q) = true.
Proof.
  intros Hc. unfold element_name, ansys_name. simpl.
  unfold clean. simpl. rewrite !all_chars_app. simpl.
  assert (Hd : all_chars word_char (str (component q)) = true).
  { apply (all_chars_impl is_digit); [|now apply str_digits].
    intros c H. unfold word_char. now rewrite H. }
  rewrite Hd. simpl. apply andb_true_iff. split; [|reflexivity].
  apply sub_leading_outside_all, sub_outside_all.
Qed.


Section Pass.

Variable host : Host.

(** *** Subtractions *)

(** X12: the modeler's [subtract] is never given an empty list of tools:
    not for the holes of a polygon, not for a ground plane. *)
Theorem subtract_tools_nonempty (selection : option (list string))
    (w : world) (blank : string) (tools : list string) :
  In (subtract blank tools) (issued (render_design host selection) w) ->
  tools <> [].
Proof.
  set (P := fun c => match c with subtract _ [] => False | _ => True end).
  assert (HE : emits P (render_design host selection)).
  { unfold render_design.
    apply emits_bind; [apply emits_silent; reflexivity | intros _].
    apply emits_bind; [apply emits_silent; reflexivity | intros _].
    apply emits_bind; [|intros _].
    { eapply emits_weaken; [|apply RendererFacts.render_tables_emits].
      intros [] H; try exact I. destruct tool_names; [destruct H | exact I]. }
    apply emits_bind; [|intros _].
    { eapply emits_weaken; [|apply RendererFacts.render_chips_emits].
      intros [] H; try exact I. destruct H. }
    apply emits_bind; [|intros _].
    { eapply emits_weaken; [|apply RendererFacts.subtract_from_ground_emits].
      intros [] H; try exact I. destruct tool_names; [destruct H | exact I]. }
    eapply emits_weaken; [|apply RendererFacts.metallize_emits].
    intros [] H; try exact I. destruct H. }
  intros HI. destruct (emits_issued P _ w HE) as [_ HF].
  rewrite Forall_forall in HF. specialize (HF _ HI).
  intros ->. exact HF.
Qed.

(** The loop of [subtract_from_ground] over the entries [d]. *)
Lemma ground_loop (d : subtract_dict) (w : world) :
  let m :=
    for_each d
      (fun '(chip, shapes) =>
         match shapes with
         | [] => ret tt
         | _ :: _ =>
             bind (call_modeler host (subtract (chip ++ "_plane")%string shapes))
                  (fun _ => ret tt)
         end) in
  same_accumulators w (fst (m w)) /\
  exists new rest,
    calls (fst (m w)) = calls w ++ new /\
    ground_subtractions d = new ++ rest /\
    (completes m w -> rest = []).
Proof.
  revert w. induction d as [|[chip shapes] d IH]; intros w; cbv zeta.
  - split; [now split|]. exists [], []. simpl. rewrite app_nil_r. auto.
  - cbn [for_each]. destruct shapes as [|s shapes].
    + unfold bind at 1. cbn [ret fst snd].
      destruct (IH w) as (Hacc & new & rest & E & G & C).
      split; [exact Hacc|]. exists new, rest. auto.
    + set (c := subtract (chip ++ "_plane")%string (s :: shapes)).
      assert (Hstep : exists out,
                bind (call_modeler host c) (fun _ => ret tt) w =
                ({| chip_subtract_dict := chip_subtract_dict w;
                    assign_perfE := assign_perfE w;
                    calls := calls w ++ [c] |}, out)).
      { unfold bind, call_modeler, ret.
        destruct (modeler host (calls w) c); eexists; reflexivity. }
      destruct Hstep as [out Hstep].
      fold c. rewrite (bind_run _ _ _ _ _ Hstep).
      set (w1 := {| chip_subtract_dict := chip_subtract_dict w;
                    assign_perfE := assign_perfE w;
                    calls := calls w ++ [c] |}).
      destruct out as [e|[]]; cbn [fst snd].
      * split; [now split|].
        exists [c], (ground_subtractions d).
        split; [reflexivity|]. split; [reflexivity|].
        intros [a Ha]. cbn [for_each] in Ha. fold c in Ha.
        rewrite (bind_run _ _ _ _ _ Hstep) in Ha. discriminate Ha.
      * destruct (IH w1) as ((Hd & Hl) & new & rest & E & G & C).
        split; [split; [exact Hd | exact Hl]|].
        exists (c :: new), rest.
        split; [rewrite E; unfold w1; simpl; now rewrite <- app_assoc|].
        split.
        -- unfold ground_subtractions in *. simpl. now rewrite G.
        -- intros [a Ha]. apply C. exists a.
           cbn [for_each] in Ha. fold c in Ha.
           now rewrite (bind_run _ _ _ _ _ Hstep) in Ha.
Qed.

(** X11: [subtract_from_ground] changes neither accumulator, and the calls
    it makes are the start of this list: for each chip of the dictionary
    whose set is not empty, in the dictionary's order, one subtraction of
    the whole set from the chip's plane.  It makes all of them if no
    call raises. *)
Theorem subtract_from_ground_calls (w : world) :
  same_accumulators w (fst (subtract_from_ground host w)) /\
  exists rest,
    ground_subtractions (chip_subtract_dict w) =
      issued (subtract_from_ground host) w ++ rest /\
    (completes (subtract_from_ground host) w -> rest = []).
Proof.
  destruct (ground_loop (chip_subtract_dict w) w)
    as (Hacc & new & rest & E & G & C).
  cbv zeta in *.
  assert (Hrun : subtract_from_ground host w =
                 for_each (chip_subtract_dict w)
                   (fun '(chip, shapes) =>
                      match shapes with
                      | [] => ret tt
                      | _ :: _ =>
                          bind (call_modeler host
                                  (subtract (chip ++ "_plane")%string shapes))
                               (fun _ => ret tt)
                      end) w) by reflexivity.
  split; [now rewrite Hrun|].
  exists rest. split.
  - rewrite (issued_app _ w new); [exact G | now rewrite Hrun].
  - unfold completes. rewrite Hrun. exact C.
Qed.

(** *** Chips *)

(** One round of [render_chips]: the dictionary is kept, and on return
    the chip's plane is appended to [assign_perfE] if the chip's set is
    not empty. *)
Lemma render_chip_effect (chip_name : string) (w : world) :
  let w' := fst (render_chip host chip_name w) in
  chip_subtract_dict w' = chip_subtract_dict w /\
  (completes (render_chip host chip_name) w ->
   assign_perfE w' =
   assign_perfE w ++ ground_planes (chip_subtract_dict w) [chip_name]).
Proof.
  cbv zeta. unfold render_chip, completes, ground_planes.
  destruct (_chips host chip_name) as [material|];
    [|split; [reflexivity | intros [a Ha]; discriminate Ha]].
  unfold bind, when, call_modeler, get_dict, get_perfE, set_perfE, ret.
  destruct w as [d l log]. cbn [chip_subtract_dict assign_perfE calls filter map].
  destruct (String.eqb chip_name "main");
    repeat match goal with
           | |- context [modeler host ?h ?c] =>
               destruct (modeler host h c);
               cbn [fst snd chip_subtract_dict assign_perfE calls]
           end;
    cbn [fst snd chip_subtract_dict assign_perfE calls];
    try (split; [reflexivity | intros [a Ha]; discriminate Ha]);
    destruct (dict_get d chip_name);
    cbn [fst snd chip_subtract_dict assign_perfE calls map];
    repeat match goal with
           | |- context [modeler host ?h ?c] =>
               destruct (modeler host h c);
               cbn [fst snd chip_subtract_dict assign_perfE calls]
           end;
    split; try reflexivity; try (intros [a Ha]; discriminate Ha);
    intros _; now rewrite ?app_nil_r.
Qed.

Lemma chips_loop (chip_names : list string) (w : world) :
  let m := for_each chip_names (render_chip host) in
  chip_subtract_dict (fst (m w)) = chip_subtract_dict w /\
  (completes m w ->
   assign_perfE (fst (m w)) =
   assign_perfE w ++ ground_planes (chip_subtract_dict w) chip_names).
Proof.
  revert w. induction chip_names as [|k l IH]; intros w; cbv zeta.
  - split; [reflexivity|]. intros _. simpl. now rewrite app_nil_r.
  - cbn [for_each]. unfold bind, completes.
    destruct (render_chip_effect k w) as [Hd Hl]. cbv zeta in Hd, Hl.
    unfold completes in Hl.
    destruct (render_chip host k w) as [w1 [e|[]]]; cbn [fst snd] in *.
    + split; [exact Hd|]. intros [a Ha]. discriminate Ha.
    + destruct (IH w1) as [Hd1 Hl1]. cbv zeta in Hd1, Hl1.
      split; [now rewrite Hd1|].
      intros Hc. rewrite (Hl1 Hc), Hd, Hl by (now exists tt).
      rewrite <- app_assoc. f_equal.
      unfold ground_planes. cbn [filter].
      destruct (dict_get (chip_subtract_dict w) k); reflexivity.
Qed.

(** One round of [render_chips]: the calls it makes are the start of
    [chip_drawings], all of them when it returns, and it returns only
    for a chip of the design. *)
Lemma render_chip_calls (chip_name : string) (w : world) :
  exists new rest,
    calls (fst (render_chip host chip_name w)) = calls w ++ new /\
    chip_drawings host chip_name = new ++ rest /\
    (completes (render_chip host chip_name) w ->
     rest = [] /\ exists material, _chips host chip_name = Some material).
Proof.
  unfold render_chip, chip_drawings, completes.
  destruct (_chips host chip_name) as [material|].
  2:{ exists [], []. rewrite app_nil_r.
      split; [reflexivity|]. split; [reflexivity|].
      intros [a Ha]. discriminate Ha. }
  unfold bind, when, call_modeler, get_dict, get_perfE, set_perfE, ret.
  destruct w as [d l log].
  cbn [chip_subtract_dict assign_perfE calls map].
  destruct (String.eqb chip_name "main");
    repeat match goal with
           | |- context [modeler host ?h ?c] =>
               destruct (modeler host h c);
               cbn [fst snd chip_subtract_dict assign_perfE calls]
           | |- context [dict_get d chip_name] =>
               destruct (dict_get d chip_name);
               cbn [fst snd chip_subtract_dict assign_perfE calls]
           end;
    rewrite <- ?app_assoc; cbn [app];
    match goal with
    | |- exists new rest, _ ++ ?n = _ ++ new /\ ?all = new ++ rest /\ _ =>
        exists n; eexists;
        (split; [reflexivity|]); (split; [cbn [app]; reflexivity|])
    end;
    intros [a Ha]; try discriminate Ha; (split; [reflexivity | eauto]).
Qed.

Lemma chips_calls (chip_names : list string) (w : world) :
  let m := for_each chip_names (render_chip host) in
  exists new rest,
    calls (fst (m w)) = calls w ++ new /\
    flat_map (chip_drawings host) chip_names = new ++ rest /\
    (completes m w ->
     rest = [] /\
     forall k, In k chip_names -> exists material, _chips host k = Some material).
Proof.
  revert w. induction chip_names as [|k l IH]; intros w; cbv zeta.
  - exists [], []. simpl. rewrite app_nil_r.
    split; [reflexivity|]. split; [reflexivity|].
    intros _. split; [reflexivity|]. intros k [].
  - cbn [for_each flat_map].
    destruct (render_chip_calls k w) as (n1 & r1 & E1 & D1 & C1).
    unfold completes in *.
    destruct (render_chip host k w) as [w1 out] eqn:R.
    cbn [fst snd] in *.
    destruct out as [e|[]].
    + exists n1, (r1 ++ flat_map (chip_drawings host) l).
      rewrite (bind_run _ _ _ _ _ R). cbn [fst snd].
      split; [exact E1|]. split; [now rewrite D1, app_assoc|].
      intros [a Ha]. discriminate Ha.
    + destruct C1 as [-> Hk]; [now exists tt|]. rewrite app_nil_r in D1.
      destruct (IH w1) as (n2 & r2 & E2 & D2 & C2). cbv zeta in *.
      exists (n1 ++ n2), r2.
      rewrite (bind_run _ _ _ _ _ R).
      split; [now rewrite E2, E1, app_assoc|].
      split; [now rewrite D1, D2, app_assoc|].
      intros Hc. destruct (C2 Hc) as [-> Hl]. split; [reflexivity|].
      intros k' [<-|Hk']; [exact Hk | now apply Hl].
Qed.

(** On a list of calls that holds [chip_drawings] of a known chip, the
    chip's plane is drawn. *)
Lemma plane_in_drawings (chip_name material : string) :
  _chips host chip_name = Some material ->
  exists pos x_size y_size,
    In (draw_rect_center pos x_size y_size (chip_name ++ "_plane")%string 0%Q)
       (chip_drawings host chip_name).
Proof.
  intros E. unfold chip_drawings. rewrite E.
  do 3 eexists. apply in_or_app. right. left. reflexivity.
Qed.

(** X10: [render_chips] never changes [chip_subtract_dict]; when it
    returns, it has made, for every chip of the dictionary in the
    dictionary's order, the calls that draw the chip (the vacuum box for
    the chip [main], the chip's plane, the chip's box), so the plane of
    every chip is drawn; and it has appended to [assign_perfE] the plane
    of every chip whose set of shapes to subtract is not empty, and
    nothing else: a chip with nothing to subtract gets its plane drawn
    but not metallized. *)
Theorem render_chips_planes (w : world) :
  let chip_names := map fst (chip_subtract_dict w) in
  chip_subtract_dict (fst (render_chips host w)) = chip_subtract_dict w /\
  (completes (render_chips host) w ->
   issued (render_chips host) w = flat_map (chip_drawings host) chip_names /\
   (forall chip_name, In chip_name chip_names ->
      exists pos x_size y_size,
        In (draw_rect_center pos x_size y_size
                             (chip_name ++ "_plane")%string 0%Q)
           (issued (render_chips host) w)) /\
   assign_perfE (fst (render_chips host w)) =
   assign_perfE w ++ ground_planes (chip_subtract_dict w) chip_names).
Proof.
  cbv zeta.
  assert (Hrun : render_chips host w =
                 for_each (map fst (chip_subtract_dict w)) (render_chip host) w)
    by reflexivity.
  destruct (chips_loop (map fst (chip_subtract_dict w)) w) as [Hd Hl].
  destruct (chips_calls (map fst (chip_subtract_dict w)) w)
    as (new & rest & E & D & C).
  cbv zeta in *. unfold completes in *. rewrite <- Hrun in *.
  split; [exact Hd|]. intros Hc.
  destruct (C Hc) as [-> Hknown]. rewrite app_nil_r in D.
  assert (T : issued (render_chips host) w = new) by (apply issued_app; exact E).
  rewrite T, <- D. split; [reflexivity|]. split; [|now apply Hl].
  intros k Hk. destruct (Hknown k Hk) as [material Hm].
  destruct (plane_in_drawings k material Hm) as (pos & xs & ys & HI).
  exists pos, xs, ys. apply in_flat_map. now exists k.
Qed.

(** *** An empty design *)

(** X13: when every element table is empty, [render_design] draws
    nothing: its only call on the modeler is [assign_perfect_E] with an
    empty list, and both accumulators end empty. *)
Theorem render_design_empty (selection : option (list string)) (w : world) :
  (forall table_type, In table_type (get_element_types host) ->
                      tables host table_type = []) ->
  issued (render_design host selection) w = [assign_perfect_E []] /\
  chip_subtract_dict (fst (render_design host selection w)) = [] /\
  assign_perfE (fst (render_design host selection w)) = [].
Proof.
  intros Hempty.
  assert (Htables : forall w0, render_tables host selection w0 = (w0, inr tt)).
  { unfold render_tables. apply for_each_skip. intros t w0 Ht.
    unfold render_components. rewrite (Hempty t Ht).
    destruct selection as [[|x l]|]; try reflexivity.
    destruct (get_unique_component_ids host (x :: l)) as [ids case].
    destruct (negb (case =? 1)%Z); reflexivity. }
  assert (Hrun : render_design host selection w =
                 metallize host (fresh_world w)).
  { unfold render_design.
    unfold bind at 1 2 3. cbn [set_dict set_perfE fst snd chip_subtract_dict assign_perfE calls].
    change {| chip_subtract_dict := []; assign_perfE := []; calls := calls w |}
      with (fresh_world w).
    rewrite Htables. reflexivity. }
  rewrite Hrun. unfold metallize, bind, get_perfE, call_modeler, fresh_world.
  cbn [chip_subtract_dict assign_perfE calls fst snd].
  split; [|destruct (modeler host (calls w) (assign_perfect_E [])); auto].
  apply issued_app. rewrite Hrun.
  unfold metallize, bind, get_perfE, call_modeler, fresh_world.
  cbn [chip_subtract_dict assign_perfE calls fst snd].
  destruct (modeler host (calls w) (assign_perfect_E [])); reflexivity.
Qed.

(** *** Paths *)

(** A path with fewer than two points and a non-zero width cannot be
    swept: [render_element_path] does not return. *)
Lemma path_short_not_completes (q : qgeom) (coords : list point)
    (w : world) :
  geom q = LineString coords ->
  (List.length coords < 2)%nat ->
  truthy (parse_units host (width q)) = true ->
  ~ completes (render_element_path host q) w.
Proof.
  intros G Hlen Hw. unfold render_element_path. rewrite G, Hw.
  apply bind_not_completes_r. intros p1 w1.
  apply bind_not_completes_r. intros p2 w2.
  apply bind_not_completes_r. intros _ w3.
  apply bind_not_completes_l. cbn [when].
  apply bind_not_completes_l.
  unfold sweep_profile.
  destruct coords as [|[x0 y0] [|[x1 y1] coords]]; simpl in Hlen; try lia;
    intros [a Ha]; discriminate Ha.
Qed.

(** X15: the sweep is made only for a path whose width, converted by
    [parse_units], is not zero. *)
Theorem sweep_only_with_width (q : qgeom) (w : world)
    (to_sweep path_obj : handle) :
  In (_sweep_along_path to_sweep path_obj)
     (issued (render_element_path host q) w) ->
  truthy (parse_units host (width q)) = true.
Proof.
  set (P := fun c => match c with
                     | _sweep_along_path _ _ =>
                         truthy (parse_units host (width q)) = true
                     | _ => True
                     end).
  assert (HE : emits P (render_element_path host q)).
  { unfold render_element_path.
    destruct (geom q); try (apply emits_silent; reflexivity).
    apply emits_bind; [apply emits_call; exact I | intros p1].
    apply emits_bind; [apply emits_call; exact I | intros p2].
    apply emits_bind; [|intros _].
    { unfold fillet_element. repeat first [emits_step | exact I]. }
    apply emits_bind; [|intros _; apply RendererFacts.record_element_emits].
    destruct (truthy (parse_units host (width q))) eqn:T;
      [|apply emits_silent; reflexivity].
    cbn [when]. unfold sweep_profile.
    repeat first [emits_step | exact I | reflexivity]. }
  intros HI. destruct (emits_issued P _ w HE) as [_ HF].
  rewrite Forall_forall in HF. exact (HF _ HI).
Qed.

(** *** Fillets below the seventh decimal *)

(** X16: a fillet radius of at most half a unit of the seventh decimal
    (zero and negative radii included) rounds to no radius at all:
    neither element renderer calls [_fillet]. *)
Theorem fillet_below_rounding (q : qgeom) (w : world) :
  (fillet q * pow10 7 <= 1 # 2)%Q ->
  Forall (fun c => is_fillet c = false)
         (issued (render_element_poly host q) w ++
          issued (render_element_path host q) w).
Proof.
  intros Hsmall.
  destruct (emits_issued _ _ w (RendererFacts.render_element_poly_guarded host q))
    as [_ Hpoly].
  destruct (emits_issued _ _ w (RendererFacts.render_element_path_guarded host q))
    as [_ Hpath].
  apply Forall_app. split; [revert Hpoly | revert Hpath];
    apply Forall_impl; intros c G;
    (destruct c; try reflexivity);
    destruct G as [Hpos _]; apply round_pos in Hpos; lra.
Qed.

(** *** Names of the drawn objects *)

(** X5: every object the element renderers rename gets the name
    [Q<component>_<cleaned element name>]; for a component id that is
    not negative this is a capital Q followed by letters, digits and
    underscores only. *)
Theorem renamed_to_ansys_name (q : qgeom) (w : world) (obj : handle)
    (n : string) :
  In (rename obj n) (issued (render_element host q) w) \/
  In (rename_obj obj n) (issued (render_element host q) w) ->
  n = element_name q /\
  ((0 <= component q)%Z -> ansys_name n = true).
Proof.
  set (P := fun c => match c with
                     | rename _ n | rename_obj _ n => n = element_name q
                     | _ => True
                     end).
  assert (HE : emits P (render_element host q)).
  { unfold render_element, render_element_poly, render_element_path.
    destruct (geom q); try (apply emits_silent; reflexivity).
    - repeat first [ apply RendererFacts.record_element_emits
                   | apply emits_bind; [|intros]
                   | apply emits_call; first [exact I | reflexivity]
                   | unfold fillet_element; emits_step
                   | emits_step | exact I | reflexivity ].
    - unfold sweep_profile.
      repeat first [ apply RendererFacts.record_element_emits
                   | apply emits_bind; [|intros]
                   | apply emits_call; first [exact I | reflexivity]
                   | unfold fillet_element; emits_step
                   | emits_step | exact I | reflexivity ]. }
  intros HI. destruct (emits_issued P _ w HE) as [_ HF].
  rewrite Forall_forall in HF.
  assert (Hn : n = element_name q) by (destruct HI as [HI|HI]; exact (HF _ HI)).
  split; [exact Hn|]. intros Hc. rewrite Hn. now apply element_name_ansys.
Qed.

End Pass.

Lemma subtract_tools_nonempty_witness : ["Q1_cut"%string] <> [].
Proof.
  apply (subtract_tools_nonempty demo None empty_world "main_plane").
  vm_compute. repeat first [left; reflexivity | right].
Defined.

Lemma render_design_empty_witness :
  issued (render_design bare None) used_world = [assign_perfect_E []].
Proof.
  apply (render_design_empty bare None used_world).
  intros t _. reflexivity.
Defined.

Lemma sweep_only_with_width_witness :
  truthy (parse_units demo (width trace_line)) = true.
Proof.
  apply (sweep_only_with_width demo trace_line empty_world "obj" "Q1_cut").
  vm_compute. repeat first [left; reflexivity | right].
Defined.

Lemma fillet_below_rounding_witness :
  Forall (fun c => is_fillet c = false)
         (issued (render_element_poly demo thin) empty_world ++
          issued (render_element_path demo thin) empty_world).
Proof.
  apply (fillet_below_rounding demo thin empty_world).
  vm_compute. discriminate.
Defined.

Lemma renamed_to_ansys_name_witness :
  "Q1_pad1"%string = element_name pad /\
  ((0 <= component pad)%Z -> ansys_name "Q1_pad1" = true).
Proof.
  apply (renamed_to_ansys_name demo pad empty_world "obj").
  left. vm_compute. repeat first [left; reflexivity | right].
Defined.


End PassFacts.

(* ================================================================== *)
(** ** The tables as one list of rows *)
(* ================================================================== *)

Module TablesFacts.

Import Py Fillet CleanName Modeler Renderer Trace Effects Samples Examples.
Import TraceFacts EffectFacts PassFacts.
Open Scope list_scope.

Lemma bind_assoc_run {A B C} (m : M A) (k : A -> M B) (h : B -> M C) w :
  bind (bind m k) h w = bind m (fun a => bind (k a) h) w.
Proof.
  unfold bind. destruct (m w) as [w1 [e|a]]; [reflexivity|].
  destruct (k a w1) as [w2 [e|b]]; reflexivity.
Qed.

Lemma for_each_app {A} (l1 l2 : list A) (body : A -> M unit) w :
  for_each (l1 ++ l2) body w =
  bind (for_each l1 body) (fun _ => for_each l2 body) w.
Proof.
  revert w. induction l1 as [|x l1 IH]; intros w; [reflexivity|].
  change (for_each ((x :: l1) ++ l2) body w)
    with (bind (body x) (fun _ => for_each (l1 ++ l2) body) w).
  change (for_each (x :: l1) body) with (bind (body x) (fun _ => for_each l1 body)).
  rewrite bind_assoc_run.
  destruct (body x w) as [w1 out] eqn:R.
  rewrite !(bind_run _ _ _ _ _ R).
  destruct out as [e|[]]; [reflexivity|]. apply IH.
Qed.

(** A loop over tables and, inside, over the rows of each, is one loop
    over all the rows. *)
Lemma for_each_flat {A B} (f : A -> list B) (l : list A) (body : B -> M unit) w :
  for_each l (fun x => for_each (f x) body) w =
  for_each (flat_map f l) body w.
Proof.
  revert w. induction l as [|x l IH]; intros w; [reflexivity|].
  change (for_each (x :: l) (fun x => for_each (f x) body) w)
    with (bind (for_each (f x) body)
               (fun _ => for_each l (fun x => for_each (f x) body)) w).
  cbn [flat_map]. rewrite for_each_app.
  destruct (for_each (f x) body w) as [w1 out] eqn:R.
  rewrite !(bind_run _ _ _ _ _ R).
  destruct out as [e|[]]; [reflexivity|]. apply IH.
Qed.

Lemma set_add_In (s : list string) (x n : string) :
  In n (set_add s x) <-> In n s \/ n = x.
Proof.
  unfold set_add. destruct (existsb (String.eqb x) s) eqn:E.
  - split; [tauto|]. intros [H| ->]; [exact H|].
    apply existsb_exists in E as (y & Hy & Hxy).
    apply String.eqb_eq in Hxy. now subst y.
  - rewrite in_app_iff. simpl. intuition.
Qed.

Section Tables.

Variable host : Host.

Lemma render_tables_rows selection w :
  render_tables host selection w =
  for_each (selected_rows host selection) (render_element host) w.
Proof.
  unfold render_tables, selected_rows.
  rewrite <- for_each_flat. reflexivity.
Qed.

(** What a run of [render_element] over [rows] that returns leaves in
    the accumulators. *)
Lemma rows_effect (rows : list qgeom) (w : world) :
  let m := for_each rows (render_element host) in
  completes m w ->
  assign_perfE (fst (m w)) =
    assign_perfE w ++ map element_name (filter metallic rows) /\
  (forall k,
     dict_contains (chip_subtract_dict (fst (m w))) k = true <->
     dict_contains (chip_subtract_dict w) k = true \/
     exists q, In q rows /\ is_shape q = true /\ chip q = k) /\
  (forall k n,
     In n (dict_get (chip_subtract_dict (fst (m w))) k) <->
     In n (dict_get (chip_subtract_dict w) k) \/
     exists q, In q rows /\ is_shape q = true /\ subtract_flag q = true /\
               chip q = k /\ element_name q = n).
Proof.
  cbv zeta. revert w. induction rows as [|q rows IH]; intros w Hc.
  - cbn. rewrite app_nil_r. split; [reflexivity|].
    split; intros; split; auto; intros [H|(q & [] & _)]; exact H.
  - cbn [for_each] in *. unfold completes in Hc.
    destruct (render_element host q w) as [w1 [e|[]]] eqn:R;
      rewrite (bind_run _ _ _ _ _ R) in *; [destruct Hc; discriminate|].
    specialize (IH w1 Hc). destruct IH as (IHl & IHc & IHg).
    destruct (is_shape q) eqn:S.
    + pose proof (render_element_effect host q S w) as E.
      rewrite R in E. cbn [fst snd element_effect] in E.
      destruct E as (Ec & Eg & Eo & El).
      split; [|split].
      * rewrite IHl, El. cbn [filter].
        destruct (metallic q); cbn [map]; [now rewrite <- app_assoc | reflexivity].
      * intros k. rewrite IHc.
        destruct (String.eqb_spec k (chip q)) as [->|Hne].
        -- rewrite Ec. split; [|auto].
           intros _. right. exists q. split; [now left | auto].
        -- destruct (Eo k Hne) as [Eck _]. rewrite Eck.
           split; (intros [H|(q' & Hq' & Hs & Hk)]; [now left|right]).
           ++ exists q'. split; [now right | auto].
           ++ destruct Hq' as [<-|Hq']; [congruence|]. exists q'. auto.
      * intros k n. rewrite IHg.
        destruct (String.eqb_spec k (chip q)) as [->|Hne].
        -- rewrite Eg. destruct (subtract_flag q) eqn:F.
           ++ rewrite set_add_In.
              split.
              ** intros [[H| ->]|(q' & Hq' & Hs & Hf & Hk & Hn)].
                 --- now left.
                 --- right. exists q. split; [now left | auto].
                 --- right. exists q'. split; [now right | auto].
              ** intros [H|(q' & [<-|Hq'] & Hs & Hf & Hk & Hn)].
                 --- left. now left.
                 --- left. right. now symmetry.
                 --- right. exists q'. auto.
           ++ split.
              ** intros [H|(q' & Hq' & Hs & Hf & Hk & Hn)]; [now left|].
                 right. exists q'. split; [now right | auto].
              ** intros [H|(q' & [<-|Hq'] & Hs & Hf & Hk & Hn)];
                   [now left | congruence | right; exists q'; auto].
        -- destruct (Eo k Hne) as [_ Egk]. rewrite Egk.
           split.
           ++ intros [H|(q' & Hq' & Hs & Hf & Hk & Hn)]; [now left|].
              right. exists q'. split; [now right | auto].
           ++ intros [H|(q' & [<-|Hq'] & Hs & Hf & Hk & Hn)];
                [now left | congruence | right; exists q'; auto].
    + assert (Hw1 : w1 = w).
      { rewrite (render_element_other host q w S) in R. now injection R. }
      subst w1.
      assert (Hm : metallic q = false).
      { unfold metallic, is_shape in *. destruct (geom q); auto; discriminate. }
      split; [|split].
      * rewrite IHl. cbn [filter]. now rewrite Hm.
      * intros k. rewrite IHc.
        split; (intros [H|(q' & Hq' & Hs & Hk)]; [now left|right]).
        -- exists q'. split; [now right | auto].
        -- destruct Hq' as [<-|Hq']; [congruence|]. exists q'. auto.
      * intros k n. rewrite IHg.
        split; (intros [H|(q' & Hq' & Hs & Hr)]; [now left|right]).
        -- exists q'. split; [now right | auto].
        -- destruct Hq' as [<-|Hq']; [congruence|]. exists q'. auto.
Qed.

(** X8: when [render_tables] returns, it has appended to
    [assign_perfE] the names of the metallic rows it went through, in
    their order and with repetitions, and nothing else: the rows that
    are drawn, are neither subtracted nor helpers and, for paths, have a
    width. *)
Theorem render_tables_metallized (selection : option (list string))
    (w : world) :
  completes (render_tables host selection) w ->
  assign_perfE (fst (render_tables host selection w)) =
  assign_perfE w ++
  map element_name (filter metallic (selected_rows host selection)).
Proof.
  unfold completes. rewrite render_tables_rows. intros Hc.
  now destruct (rows_effect (selected_rows host selection) w Hc).
Qed.

(** X9: when [render_tables] returns, the keys of [chip_subtract_dict]
    are the keys it had plus the chips of the rows drawn, and the set of
    a chip holds what it held plus the names of the rows drawn on that
    chip that have [subtract] set. *)
Theorem render_tables_subtracted (selection : option (list string))
    (w : world) :
  completes (render_tables host selection) w ->
  let d' := chip_subtract_dict (fst (render_tables host selection w)) in
  let rows := selected_rows host selection in
  (forall k,
     dict_contains d' k = true <->
     dict_contains (chip_subtract_dict w) k = true \/
     exists q, In q rows /\ is_shape q = true /\ chip q = k) /\
  (forall k n,
     In n (dict_get d' k) <->
     In n (dict_get (chip_subtract_dict w) k) \/
     exists q, In q rows /\ is_shape q = true /\ subtract_flag q = true /\
               chip q = k /\ element_name q = n).
Proof.
  unfold completes. cbv zeta. rewrite render_tables_rows. intros Hc.
  destruct (rows_effect (selected_rows host selection) w Hc) as (_ & Hk & Hg).
  split; assumption.
Qed.

End Tables.

Lemma render_tables_metallized_witness :
  assign_perfE (fst (render_tables demo None used_world)) =
  ["zz"; "Q1_pad1"]%string.
Proof.
  rewrite (render_tables_metallized demo None used_world).
  - reflexivity.
  - exists tt. reflexivity.
Defined.

Lemma render_tables_subtracted_witness :
  In "Q1_cut"%string
     (dict_get (chip_subtract_dict (fst (render_tables demo None used_world)))
               "main").
Proof.
  destruct (render_tables_subtracted demo None used_world) as [_ Hg].
  - exists tt. reflexivity.
  - destruct (Hg "main"%string "Q1_cut"%string) as [_ Hback].
    apply Hback. right. exists trace_line.
    split; [right; left; reflexivity|].
    split; [reflexivity|]. split; [reflexivity|].
    split; reflexivity.
Defined.

End TablesFacts.

(* ================================================================== *)
(** ** Which exception a method raises *)
(* ================================================================== *)

Module BlameFacts.

Import Py Fillet CleanName Modeler Renderer Trace Effects Samples Examples.
Import TraceFacts EffectFacts PassFacts.
Open Scope list_scope.

Section Blame.

Variable host : Host.
Variable E : exn -> Prop.

Lemma raises_only_silent {A} (m : M A) :
  (forall w, calls (fst (m w)) = calls w) ->
  (forall w e, snd (m w) = inl e -> E e) ->
  raises_only host E m.
Proof.
  intros Hc He w. exists []. rewrite app_nil_r. split; [apply Hc|].
  intros e H. left. eapply He, H.
Qed.

Lemma raises_only_call (c : call) : raises_only host E (call_modeler host c).
Proof.
  intros w. exists [c]. unfold call_modeler.
  destruct (modeler host (calls w) c) as [h|e] eqn:R; cbn [fst snd calls].
  - split; [reflexivity|]. intros e H. discriminate H.
  - split; [reflexivity|]. intros e' H. injection H as <-.
    right. exists [], c. rewrite app_nil_r. auto.
Qed.

Lemma raises_only_bind {A B} (m : M A) (k : A -> M B) :
  raises_only host E m -> (forall a, raises_only host E (k a)) ->
  raises_only host E (bind m k).
Proof.
  intros Hm Hk w.
  destruct (Hm w) as (n1 & E1 & R1).
  destruct (m w) as [w1 out] eqn:Rm. cbn [fst snd] in *.
  rewrite (bind_run _ _ _ _ _ Rm).
  destruct out as [e1|a]; cbn [fst snd].
  - exists n1. split; [exact E1|].
    intros e H. injection H as <-. now apply R1.
  - destruct (Hk a w1) as (n2 & E2 & R2).
    exists (n1 ++ n2). split; [now rewrite E2, E1, app_assoc|].
    intros e H. destruct (R2 e H) as [He|(pre & c & -> & Hr)]; [now left|].
    right. exists (n1 ++ pre), c. split; [now rewrite app_assoc|].
    now rewrite app_assoc, <- E1.
Qed.

Lemma raises_only_when (b : bool) (m : M unit) :
  raises_only host E m -> raises_only host E (when b m).
Proof.
  destruct b; simpl; [auto|]. intros _.
  apply raises_only_silent; [reflexivity|]. intros w e H. discriminate H.
Qed.

End Blame.

Ltac blame_step :=
  match goal with
  | |- raises_only _ _ (bind _ _) => apply raises_only_bind; [|intros]
  | |- raises_only _ _ (when _ _) => apply raises_only_when
  | |- raises_only _ _ (call_modeler _ _) => apply raises_only_call
  | |- raises_only _ _ (if ?b then _ else _) => destruct b
  | |- raises_only _ _ (match ?x with _ => _ end) => destruct x
  | |- raises_only _ _ _ =>
      apply raises_only_silent;
      [ reflexivity
      | let H := fresh in
        intros ? ? H; first [discriminate H | injection H as <-; reflexivity] ]
  end.

Section Path.

Variable host : Host.

Lemma record_element_blame E q n b : raises_only host E (record_element q n b).
Proof.
  unfold record_element.
  repeat first [ apply raises_only_bind; [|intros]
               | apply raises_only_when
               | apply raises_only_silent;
                 [reflexivity | intros ? ? H; discriminate H] ].
Qed.

(** A path too short to be swept raises nothing of its own but the
    [IndexError] of [points[0]] or [points[1]]. *)
Lemma render_element_path_short_blame (q : qgeom) (coords : list point) :
  geom q = LineString coords -> (List.length coords < 2)%nat ->
  raises_only host (fun e => e = IndexError) (render_element_path host q).
Proof.
  intros G Hlen. unfold render_element_path. rewrite G.
  unfold fillet_element, sweep_profile.
  destruct coords as [|[x0 y0] [|p coords]]; simpl in Hlen; try lia;
    cbn [map parse_point fst snd];
    repeat first [apply record_element_blame | blame_step].
Qed.

(** X14: for a path with fewer than two points and a width that
    [parse_units] does not turn into zero, [render_element_path] raises:
    the [IndexError] of [points[0]] or [points[1]], unless a call on the
    modeler has failed before, in which case it raises what that call,
    its last, raised. *)
Theorem render_element_path_short (q : qgeom) (coords : list point)
    (w : world) :
  geom q = LineString coords ->
  (List.length coords < 2)%nat ->
  truthy (parse_units host (width q)) = true ->
  exists e,
    snd (render_element_path host q w) = inl e /\
    (e = IndexError \/
     exists pre c,
       issued (render_element_path host q) w = pre ++ [c] /\
       modeler host (calls w ++ pre) c = Raise e).
Proof.
  intros G Hlen Hw.
  pose proof (path_short_not_completes host q coords w G Hlen Hw) as Hn.
  destruct (render_element_path_short_blame q coords G Hlen w)
    as (new & E & R).
  unfold completes in Hn.
  destruct (snd (render_element_path host q w)) as [e|a] eqn:S;
    [|elim Hn; now exists a].
  exists e. split; [reflexivity|].
  destruct (R e eq_refl) as [He|(pre & c & -> & Hr)]; [now left|].
  right. exists pre, c. split; [now apply issued_app | exact Hr].
Qed.

End Path.

Lemma render_element_path_short_witness :
  exists e,
    snd (render_element_path demo stub empty_world) = inl e /\
    (e = IndexError \/
     exists pre c,
       issued (render_element_path demo stub) empty_world = pre ++ [c] /\
       modeler demo (calls empty_world ++ pre) c = Raise e).
Proof.
  apply (render_element_path_short demo stub [] empty_world).
  - reflexivity.
  - simpl. lia.
  - reflexivity.
Defined.

End BlameFacts.

(* ================================================================== *)
(** ** The order of the phases *)
(* ================================================================== *)

Module PhaseFacts.

Import Py Fillet CleanName Modeler Renderer Trace Effects Samples Examples.
Import TraceFacts EffectFacts PassFacts TablesFacts.
Open Scope list_scope.


Section Phases.

Variable host : Host.




End Phases.
End PhaseFacts.
